(** * Mekano: AtomFactory and the line-oriented state-machine parsers

    A shallow embedding of [mekano/AtomFactory.py] and [mekano/IO.py].
    Python objects that are mutated in place are modelled by explicit
    state passing: a method takes the receiver and returns its result
    together with the receiver as the call leaves it.  Exceptions are
    values of [Py.result]. *)

From Stdlib Require Import ZArith Ascii String.
From stdpp Require Import base option list gmap strings.

Local Open Scope Z_scope.

(** ** The fragment of Python the two modules rely on *)

Module Py.

(** The exceptions the modelled code can raise.  [KeyError] and
    [IndexError] are the two built-in subclasses of [LookupError];
    [IllegalOperation] is imported from the package's [Errors] module;
    [UnboundLocalError] is what reading a local that was never bound
    raises; [TypeError] is what the [%] string formatting raises when
    its argument tuple does not fit the format. *)
Inductive exn : Set :=
| KeyError
| IndexError
| IllegalOperation
| UnboundLocalError
| TypeError.


Inductive result (A : Type) : Type :=
| Return (a : A)
| Raise (e : exn).
Global Arguments Return {A} a.
Global Arguments Raise {A} e.

Definition bind {A B} (r : result A) (k : A → result B) : result B :=
  match r with
  | Return a => k a
  | Raise e => Raise e
  end.

(** [l[i]] on a Python list: a negative index counts from the end, and
    an index outside [-len(l) .. len(l)-1] raises [IndexError]. *)
Definition list_index {A} (l : list A) (i : Z) : result A :=
  let n := Z.of_nat (length l) in
  let j := if i <? 0 then i + n else i in
  if (j <? 0) || (n <=? j) then Raise IndexError
  else match l !! Z.to_nat j with
       | Some x => Return x
       | None => Raise IndexError
       end.

End Py.

Global Instance result_bind : MBind Py.result := λ A B k r, Py.bind r k.
Global Instance result_ret : MRet Py.result := λ A a, Py.Return a.

(** ** AtomFactory.py *)

Module AtomFactory.
Import Py.

(** [formats o] tells whether ["%r not in newAF" % o] yields the
    message: the one conversion of the format takes any object that is
    not a tuple, and the element of a tuple of length one; on any other
    tuple, which [%] reads as the tuple of its arguments, it raises
    [TypeError]. *)
Class Formattable (K : Type) : Type := formats : K → bool.

(** A string is not a tuple. *)
Global Instance string_formattable : Formattable string := λ _, true.

(** A pair is a tuple of length two. *)
Global Instance pair_formattable {A B : Type} : Formattable (A * B) :=
  λ _, false.

Section Factory.
(** The objects handed to a factory are hashable Python values; all
    the code needs of them is the equality a [dict] and a [set] use,
    and, for the message of [convertAtom], [formats]. *)
Context {K : Type} `{Countable K} `{!Formattable K}.

Record AtomFactory : Type := mkAF {
  name : string;
  obj_to_atom : gmap K Z;
  atom_to_obj : list K;
  locked : bool
}.

(** [__init__] *)
Definition init (nm : string) : AtomFactory :=
  {| name := nm; obj_to_atom := ∅; atom_to_obj := []; locked := false |}.

(** [__getitem__]: the [try] returns the stored atom; the [except
    KeyError] re-raises when locked and otherwise appends. *)
Definition getitem (obj : K) (self : AtomFactory)
  : result Z * AtomFactory :=
  match obj_to_atom self !! obj with
  | Some a => (Return a, self)
  | None =>
      if locked self then (Raise KeyError, self)
      else
        let a := Z.of_nat (length (atom_to_obj self)) + 1 in
        (Return a,
         {| name := name self;
            obj_to_atom := <[obj := a]> (obj_to_atom self);
            atom_to_obj := atom_to_obj self ++ [obj];
            locked := locked self |})
  end.

(** [get_object] and its sugar [__call__] *)
Definition get_object (a : Z) (self : AtomFactory) : result K :=
  list_index (atom_to_obj self) (a - 1).

Definition call (a : Z) (self : AtomFactory) : result K :=
  list_index (atom_to_obj self) (a - 1).

(** [__len__] *)
Definition len (self : AtomFactory) : Z :=
  Z.of_nat (length (atom_to_obj self)).

(** [__contains__] *)
Definition contains (obj : K) (self : AtomFactory) : bool :=
  bool_decide (is_Some (obj_to_atom self !! obj)).

(** [lock] *)
Definition lock (self : AtomFactory) : AtomFactory :=
  {| name := name self;
     obj_to_atom := obj_to_atom self;
     atom_to_obj := atom_to_obj self;
     locked := true |}.

(** The body of the loop of [remove]: one iteration on [new_af]. *)
Definition remove_step (objects : gset K) (obj : K) (new_af : AtomFactory)
  : result AtomFactory :=
  if bool_decide (obj ∉ objects) then
    match getitem obj new_af with
    | (Return _, new_af') => Return new_af'
    | (Raise e, _) => Raise e
    end
  else Return new_af.

Fixpoint remove_loop (objects : gset K) (objs : list K)
    (new_af : AtomFactory) : result AtomFactory :=
  match objs with
  | [] => Return new_af
  | obj :: rest =>
      new_af' ← remove_step objects obj new_af;
      remove_loop objects rest new_af'
  end.

(** [remove]: the result is the new factory; the second component is
    the receiver after the call. *)
Definition remove (objects : list K) (self : AtomFactory)
  : result AtomFactory * AtomFactory :=
  let objects : gset K := list_to_set objects in
  let new_af := init (name self) in
  (remove_loop objects (atom_to_obj self) new_af, self).

(** [convertAtom]: returns the atom and both factories after the call.
    The operand of [raise], ["%r not in newAF" % o], is evaluated
    first, and raises [TypeError] itself when [o] does not format. *)
Definition convertAtom (oldAF newAF : AtomFactory) (atom : Z)
  : result Z * (AtomFactory * AtomFactory) :=
  match get_object atom oldAF with
  | Raise e => (Raise e, (oldAF, newAF))
  | Return o =>
      if negb (contains o newAF) then
        if formats o then (Raise IllegalOperation, (oldAF, newAF))
        else (Raise TypeError, (oldAF, newAF))
      else
        let '(r, newAF') := getitem o newAF in
        (r, (oldAF, newAF'))
  end.

(** *** The methods as one operation type *)

Inductive op : Type :=
| OpGetitem (obj : K)
| OpGetObject (a : Z)
| OpCall (a : Z)
| OpLen
| OpContains (obj : K)
| OpLock
| OpRemove (objects : list K).

Inductive value : Type :=
| VAtom (r : result Z)
| VObj (r : result K)
| VInt (n : Z)
| VBool (b : bool)
| VNone
| VFactory (r : result AtomFactory).

(** One method call on [self]: what it returns, and [self] afterwards. *)
Definition exec (o : op) (self : AtomFactory) : value * AtomFactory :=
  match o with
  | OpGetitem obj => let '(r, self') := getitem obj self in (VAtom r, self')
  | OpGetObject a => (VObj (get_object a self), self)
  | OpCall a => (VObj (call a self), self)
  | OpLen => (VInt (len self), self)
  | OpContains obj => (VBool (contains obj self), self)
  | OpLock => (VNone, lock self)
  | OpRemove objects => let '(r, self') := remove objects self in (VFactory r, self')
  end.

(** Every factory a call hands back, besides the receiver. *)
Definition returned_factory (v : value) : option AtomFactory :=
  match v with
  | VFactory (Return g) => Some g
  | _ => None
  end.

(** A sequence of method calls on one factory. *)
Definition exec_all (ops : list op) (self : AtomFactory) : AtomFactory :=
  foldl (λ f o, (exec o f).2) self ops.

(** *** The bimap invariant *)

Record bimap_inv (f : AtomFactory) : Prop := mkInv {
  inv_len : length (atom_to_obj f) = size (obj_to_atom f);
  inv_fwd_bwd : ∀ a, 1 ≤ a ≤ len f →
    ∃ o, atom_to_obj f !! Z.to_nat (a - 1) = Some o ∧ obj_to_atom f !! o = Some a;
  inv_distinct : ∀ o1 o2 a1 a2, o1 ≠ o2 →
    obj_to_atom f !! o1 = Some a1 → obj_to_atom f !! o2 = Some a2 → a1 ≠ a2;
  inv_contiguous : ∀ o a, obj_to_atom f !! o = Some a → 1 ≤ a ≤ len f
}.

(** In-place mutation from [f] to [f'] only appends: objects keep their
    place in the sequence and their atom. *)
Definition stable (f f' : AtomFactory) : Prop :=
  atom_to_obj f `prefix_of` atom_to_obj f' ∧ obj_to_atom f ⊆ obj_to_atom f'.

(** *** [remove], as the documentation words it *)

(** Looking up each object of [objs] in turn, starting from [f]. *)
Definition insert_all (objs : list K) (f : AtomFactory) : AtomFactory :=
  foldl (λ acc obj, (getitem obj acc).2) f objs.

(** The objects of [f] not in [objects], in [f]'s order, inserted into a
    fresh factory. *)
Definition remove_spec (objects : list K) (f : AtomFactory) : AtomFactory :=
  let S : gset K := list_to_set objects in
  insert_all (filter (λ obj, obj ∉ S) (atom_to_obj f)) (init (name f)).

(** *** [convertAtomVector] and [savetxt] *)

(** Modelled from the spec: the class [AtomVector] (module
    [AtomVector], not among these sources) is a sparse vector keyed by
    atoms.  The function only iterates the old vector and assigns items
    of the new one, so the old vector is taken as the sequence of
    [(atom, value)] pairs [av.iteritems()] yields and the new vector as
    the sequence of assignments [new_av[a] = v] made on it, in order.
    [except IllegalOperation: pass] skips the item; any other exception
    ([IndexError] from [get_object], [TypeError] from the message of
    [convertAtom]) leaves the loop and the function. *)
Fixpoint convertAtomVector_loop {V : Type} (oldAF newAF : AtomFactory)
    (items : list (Z * V)) (new_av : list (Z * V))
  : result (list (Z * V)) * (AtomFactory * AtomFactory) :=
  match items with
  | [] => (Return new_av, (oldAF, newAF))
  | (a, v) :: rest =>
      match convertAtom oldAF newAF a with
      | (Return a', (oldAF', newAF')) =>
          convertAtomVector_loop oldAF' newAF' rest (new_av ++ [(a', v)])
      | (Raise IllegalOperation, (oldAF', newAF')) =>
          convertAtomVector_loop oldAF' newAF' rest new_av
      | (Raise e, afs) => (Raise e, afs)
      end
  end.

Definition convertAtomVector {V : Type} (oldAF newAF : AtomFactory)
    (av : list (Z * V))
  : result (list (Z * V)) * (AtomFactory * AtomFactory) :=
  convertAtomVector_loop oldAF newAF av [].

(** What [convertAtomVector] makes of one item when nothing is raised:
    the item under its new atom, or nothing when its object is not in
    [newAF]. *)
Definition converted_item {V : Type} (oldAF newAF : AtomFactory)
    (item : Z * V) : option (Z * V) :=
  match get_object item.1 oldAF with
  | Return o => (λ a', (a', item.2)) <$> obj_to_atom newAF !! o
  | Raise _ => None
  end.

(** A vector read through a factory: each item whose atom names an
    object, as that object with the item's value. *)
Definition named_items {V : Type} (af : AtomFactory) (items : list (Z * V))
  : list (K * V) :=
  omap (λ item, match get_object item.1 af with
                | Return o => Some (o, item.2)
                | Raise _ => None
                end) items.

(** [savetxt]: the strings handed to [fout.write], in order.  [str] is
    what ["%s" % obj] makes of an object. *)
Definition savetxt (str : K → string) (self : AtomFactory) : list string :=
  (λ obj, str obj +:+ String "010"%char "") <$> atom_to_obj self.

End Factory.


Global Arguments AtomFactory K {_ _}.

End AtomFactory.

(** ** IO.py *)

Module IO.
Import Py.

(** *** String methods used by the handlers *)

(** [s.startswith(p)] *)
Definition startswith (s p : string) : bool := String.prefix p s.

(** [s.find(sub, start)] for a start inside [0 ..]: the lowest index at
    or after [start] where [sub] occurs, and [-1] when there is none. *)
Definition find (s sub : string) (start : nat) : Z :=
  match String.index start sub s with
  | Some i => Z.of_nat i
  | None => -1
  end.

(** A slice bound: negative bounds count from the end, and every bound
    is clamped to [0 .. len(s)]. *)
Definition slice_bound (n i : Z) : Z :=
  if i <? 0 then Z.max 0 (i + n) else Z.min i n.

(** [s[lo:hi]] *)
Definition slice (s : string) (lo hi : Z) : string :=
  let n := Z.of_nat (String.length s) in
  let lo' := slice_bound n lo in
  let hi' := slice_bound n hi in
  String.substring (Z.to_nat lo') (Z.to_nat (hi' - lo')) s.

(** [s[lo:]] *)
Definition slice_from (s : string) (lo : Z) : string :=
  slice s lo (Z.of_nat (String.length s)).

Fixpoint lstrip (s : string) : string :=
  match s with
  | String a s' => if Ascii.is_space a then lstrip s' else s
  | EmptyString => EmptyString
  end.

Definition rstrip (s : string) : string := String.rev (lstrip (String.rev s)).

(** [s.strip()] *)
Definition strip (s : string) : string := rstrip (lstrip s).

(** The character [c] does not occur in [s]. *)
Fixpoint lacks (c : ascii) (s : string) : bool :=
  match s with
  | EmptyString => true
  | String a s' => negb (Ascii.eqb a c) && lacks c s'
  end.

(** ["".join(ls)] *)
Definition join (ls : list string) : string := String.concat "" ls.

(** [[c.group(1) for c in re.compile("([^ ]+) 1").finditer(line)]]: the
    scan keeps in [cur] the run of non-space characters read since the
    search position, in reverse.  A space followed by ["1"] closes a
    non-empty run into a match, and the search resumes after that
    ["1"]; any other space drops the run. *)
Fixpoint cat_scan (cur : string) (s : string) : list string :=
  match s with
  | EmptyString => []
  | String c rest =>
      if Ascii.eqb c " "%char then
        match cur, rest with
        | String _ _, String "1"%char rest' =>
            String.rev cur :: cat_scan EmptyString rest'
        | _, _ => cat_scan EmptyString rest
        end
      else cat_scan (String c cur) rest
  end.

Definition cat_regex_groups (line : string) : list string :=
  cat_scan EmptyString line.

(** *** StateMachineFileParser *)

(** What a state function may return (class docstring): [False], [None]
    or the name of the next state.  The record callbacks return the
    same kind of value; only [is False] is ever tested on it. *)
Inductive pyret : Set :=
| PyFalse
| PyNone
| PyStr (s : string).

Definition is_False (r : pyret) : bool :=
  match r with PyFalse => true | _ => false end.

(** The calls [parse] makes, in order: a state function on a line, or
    the terminal hook [onFinish] on a line. *)
Inductive event : Set :=
| EvHandler (state : string) (line : string)
| EvFinish (line : string).

Definition event_line (e : event) : string :=
  match e with
  | EvHandler _ line => line
  | EvFinish line => line
  end.

(** A bound method taking a line, on an instance of type [S]. *)
Abbreviation method S := (string → S → pyret * S).

Section Engine.
(** [S] is the instance state the bound methods share. *)
Context {S : Type}.

(** A class, as [parse] sees it: the attributes whose value is a bound
    method taking a line (what [dir(self)] lists, by attribute name),
    the start state and the [onFinish] in force. *)
Record machine : Type := mkMachine {
  dir : list (string * method S);
  start : string;
  onFinish : method S
}.

(** [__introspect]: every attribute whose name begins with ["on"] is
    entered under the rest of its name. *)
Definition introspect_step (fns : gmap string (method S)) (attr : string * method S)
  : gmap string (method S) :=
  if startswith attr.1 "on" then <[slice_from attr.1 2 := attr.2]> fns
  else fns.

Definition introspect (m : machine) : gmap string (method S) :=
  foldl introspect_step ∅ (dir m).

(** The local variables of [parse] and the instance, plus the log of
    calls made. *)
Record frame : Type := mkFrame {
  f_state : string;
  f_line : option string;
  f_self : S;
  f_trace : list event
}.

(** How a statement completes: normally, by [break], or by raising. *)
Inductive completion : Set :=
| Normal
| Break
| Throw (e : exn).

(** The body of the [for] loop of [parse], on one line. *)
Definition loop_body (fns : gmap string (method S)) (line : string) (fr : frame)
  : completion * frame :=
  let state := f_state fr in
  match fns !! state with
  | None =>
      (Throw KeyError,
       {| f_state := state; f_line := Some line;
          f_self := f_self fr; f_trace := f_trace fr |})
  | Some fn =>
      let '(newstate, self') := fn line (f_self fr) in
      let trace' := f_trace fr ++ [EvHandler state line] in
      match newstate with
      | PyFalse =>
          (Break,
           {| f_state := state; f_line := Some line;
              f_self := self'; f_trace := trace' |})
      | PyNone =>
          (Normal,
           {| f_state := state; f_line := Some line;
              f_self := self'; f_trace := trace' |})
      | PyStr s =>
          (Normal,
           {| f_state := s; f_line := Some line;
              f_self := self'; f_trace := trace' |})
      end
  end.

(** The [for] loop over the lines of [fin]: [Normal] when the source
    is exhausted. *)
Fixpoint for_loop (fns : gmap string (method S)) (lines : list string)
    (fr : frame) : completion * frame :=
  match lines with
  | [] => (Normal, fr)
  | line :: rest =>
      match loop_body fns line fr with
      | (Normal, fr') => for_loop fns rest fr'
      | stopped => stopped
      end
  end.

(** [self.onFinish(line)] after the loop: [line] is the loop variable,
    bound only if the loop body was entered. *)
Definition finish (m : machine) (fr : frame) : result unit * S * list event :=
  match f_line fr with
  | None => (Raise UnboundLocalError, f_self fr, f_trace fr)
  | Some line =>
      let '(_, self') := onFinish m line (f_self fr) in
      (Return (), self', f_trace fr ++ [EvFinish line])
  end.

(** The locals on entry to the loop. *)
Definition initial_frame (m : machine) (self : S) : frame :=
  {| f_state := start m; f_line := None; f_self := self; f_trace := [] |}.

(** [parse]: the outcome, the instance as the call leaves it, and the
    calls made. *)
Definition parse (m : machine) (lines : list string) (self : S)
  : result unit * S * list event :=
  let fns := introspect m in
  match for_loop fns lines (initial_frame m self) with
  | (Throw e, fr) => (Raise e, f_self fr, f_trace fr)
  | (Normal, fr) | (Break, fr) => finish m fr
  end.

(** The loop over [lines] from [fr] completes as [c], in state [st]
    with the instance as [self']. *)
Definition reaches (fns : gmap string (method S)) (lines : list string)
    (fr : frame) (c : completion) (st : string) (self' : S) : Prop :=
  ∃ fr', for_loop fns lines fr = (c, fr') ∧ f_state fr' = st
         ∧ f_self fr' = self'.

(** The inherited [onFinish]: [pass]. *)
Definition base_onFinish : method S := λ _ self, (PyNone, self).

End Engine.

Global Arguments machine S : clear implicits.
Global Arguments frame S : clear implicits.

(** *** Callback logs *)

(** [log] lists the records a callback [cb] was invoked on; the answer
    to the [i]-th one is [cb (take i log) r].  No invocation in [log]
    asked to stop: *)
Definition all_go {R : Type} (cb : list R → R → pyret) (log : list R) : Prop :=
  ∀ i r, log !! i = Some r → cb (take i log) r ≠ PyFalse.

(** An invocation that asked to stop is the last one of [log]: *)
Definition halts_on_stop {R : Type} (cb : list R → R → pyret) (log : list R)
  : Prop :=
  ∀ i r, log !! i = Some r → cb (take i log) r = PyFalse →
         Datatypes.S i = length log.

(** The records a callback receives out of [rs], offered in order after
    those of [log], when the first answer [False] ends the offering. *)
Fixpoint delivered {R : Type} (cb : list R → R → pyret) (log rs : list R)
  : list R :=
  match rs with
  | [] => []
  | r :: rs' =>
      r :: (if is_False (cb log r) then [] else delivered cb (log ++ [r]) rs')
  end.

(** *** TrecParser *)

Module TrecParser.

(** What the callback receives: [(docid, text)]. *)
Definition record : Type := option string * string.

(** The instance.  [callback] is the caller's function; since it may
    keep state of its own, its answer is a function of the records it
    was given before and of the present one.  [calls] logs the records
    it has been invoked on, oldest first. *)
Record TrecParser : Type := mkTrec {
  docid : option string;
  textlines : list string;
  callback : list record → record → pyret;
  calls : list record
}.

(** [__init__] *)
Definition init (cb : list record → record → pyret) : TrecParser :=
  {| docid := None; textlines := []; callback := cb; calls := [] |}.

(** [self.callback(docid, text)] *)
Definition call_callback (self : TrecParser) (r : record)
  : pyret * TrecParser :=
  (callback self (calls self) r,
   {| docid := docid self; textlines := textlines self;
      callback := callback self; calls := calls self ++ [r] |}).

Definition onMisc : method TrecParser := λ line self,
  if startswith line "<DOCNO>" then
    let p := find line "<" 7 in
    (PyStr "GotDocId",
     {| docid := Some (strip (slice line 7 p)); textlines := [];
        callback := callback self; calls := calls self |})
  else (PyNone, self).

Definition onGotDocId : method TrecParser := λ line self,
  if startswith line "<TEXT>" then (PyStr "Text", self)
  else (PyNone, self).

Definition onText : method TrecParser := λ line self,
  if startswith line "</TEXT>" then
    let '(r, self') := call_callback self (docid self, join (textlines self)) in
    if is_False r then (PyFalse, self')
    else (PyStr "Misc", self')
  else
    (PyNone,
     {| docid := docid self; textlines := textlines self ++ [line];
        callback := callback self; calls := calls self |}).

(** The class: [onFinish] is the inherited one. *)
Definition cls : machine TrecParser :=
  {| dir := [("onFinish", base_onFinish); ("onGotDocId", onGotDocId);
             ("onMisc", onMisc); ("onText", onText)];
     start := "Misc";
     onFinish := base_onFinish |}.

(** The states the class defines a function for and ever moves to. *)
Definition is_state (s : string) : Prop :=
  s = "Misc" ∨ s = "GotDocId" ∨ s = "Text".

(** The source [fin] was exhausted inside a TEXT section: [pre] leads
    to a document id, [opening] opens the section and no line of [body]
    closes it.  [fr] is the frame the loop ends in. *)
Definition text_left_open (cb : list record → record → pyret)
    (fin : list string) (fr : frame TrecParser) : Prop :=
  ∃ pre opening body fr_pre,
    fin = pre ++ opening :: body ∧
    for_loop (introspect cls) pre (initial_frame cls (init cb))
      = (Normal, fr_pre) ∧
    f_state fr_pre = "GotDocId" ∧
    startswith opening "<TEXT>" = true ∧
    Forall (λ l, startswith l "</TEXT>" = false) body ∧
    textlines (f_self fr) = body ∧
    docid (f_self fr) = docid (f_self fr_pre) ∧
    calls (f_self fr) = calls (f_self fr_pre).

(** A document as the state functions read it: the [<DOCNO>] line,
    lines up to the one opening the TEXT section, the lines of the
    section, the line closing it, and lines up to the next [<DOCNO>]. *)
Record doc : Type := mkDoc {
  doc_id_line : string;
  doc_gap : list string;
  doc_open : string;
  doc_body : list string;
  doc_close : string;
  doc_trail : list string
}.

Definition doc_lines (d : doc) : list string :=
  doc_id_line d :: doc_gap d ++ doc_open d :: doc_body d
    ++ doc_close d :: doc_trail d.

Definition well_formed (d : doc) : Prop :=
  startswith (doc_id_line d) "<DOCNO>" = true ∧
  Forall (λ l, startswith l "<TEXT>" = false) (doc_gap d) ∧
  startswith (doc_open d) "<TEXT>" = true ∧
  Forall (λ l, startswith l "</TEXT>" = false) (doc_body d) ∧
  startswith (doc_close d) "</TEXT>" = true ∧
  Forall (λ l, startswith l "<DOCNO>" = false) (doc_trail d).

(** What the callback is to receive for a document. *)
Definition doc_record (d : doc) : record :=
  (Some (strip (slice (doc_id_line d) 7 (find (doc_id_line d) "<" 7))),
   join (doc_body d)).

(** [TrecParser(fin, callback).parse()] *)
Definition run (cb : list record → record → pyret) (fin : list string)
  : result unit * TrecParser * list event :=
  parse cls fin (init cb).

End TrecParser.

(** *** SMARTParser *)

Module SMARTParser.

(** What the callback receives: [(docid, cats, text)]. *)
Definition record : Type := option string * option (list string) * string.

Record SMARTParser : Type := mkSmart {
  docid : option string;
  cats : option (list string);
  textlines : list string;
  callback : list record → record → pyret;
  sectionheader : option string;
  allowedsections : option (list string);
  calls : list record
}.

(** [__init__] *)
Definition init (cb : list record → record → pyret)
    (sections : option (list string)) : SMARTParser :=
  {| docid := None; cats := None; textlines := []; callback := cb;
     sectionheader := None; allowedsections := sections; calls := [] |}.

(** [self.callback(docid, cats, text)] *)
Definition call_callback (self : SMARTParser) (r : record)
  : pyret * SMARTParser :=
  (callback self (calls self) r,
   {| docid := docid self; cats := cats self; textlines := textlines self;
      callback := callback self; sectionheader := sectionheader self;
      allowedsections := allowedsections self;
      calls := calls self ++ [r] |}).

(** [doCallBack]: the callback's answer is dropped. *)
Definition doCallBack (self : SMARTParser) : SMARTParser :=
  if negb (length (textlines self) =? 0)%nat then
    let '(_, self') :=
      call_callback self (docid self, cats self, join (textlines self)) in
    self'
  else self.

Definition onMisc : method SMARTParser := λ line self,
  if startswith line ".I" then
    (PyStr "GotDocId",
     {| docid := Some (strip (slice_from line 2)); cats := None;
        textlines := []; callback := callback self;
        sectionheader := None; allowedsections := allowedsections self;
        calls := calls self |})
  else (PyNone, self).

Definition onGotDocId : method SMARTParser := λ line self,
  if startswith line ".C" then (PyStr "SawDotC", self)
  else (PyNone, self).

Definition onSawDotC : method SMARTParser := λ line self,
  (PyStr "SectionHeader",
   {| docid := docid self; cats := Some (cat_regex_groups line);
      textlines := textlines self; callback := callback self;
      sectionheader := sectionheader self;
      allowedsections := allowedsections self; calls := calls self |}).

Definition onSectionHeader : method SMARTParser := λ line self,
  (PyStr "SectionText",
   {| docid := docid self; cats := cats self;
      textlines := textlines self; callback := callback self;
      sectionheader := Some (slice line 1 2);
      allowedsections := allowedsections self; calls := calls self |}).

(** [self.sectionheader not in self.allowedsections], for a list of
    section codes. *)
Definition header_not_in (h : option string) (allowed : list string) : bool :=
  match h with
  | Some c => bool_decide (c ∉ allowed)
  | None => true
  end.

Definition onSectionText : method SMARTParser := λ line self,
  if startswith line "." then
    if startswith line ".I" then onMisc line (doCallBack self)
    else onSectionHeader line self
  else
    match allowedsections self with
    | Some allowed =>
        if header_not_in (sectionheader self) allowed then (PyNone, self)
        else
          (PyNone,
           {| docid := docid self; cats := cats self;
              textlines := textlines self ++ [line];
              callback := callback self;
              sectionheader := sectionheader self;
              allowedsections := allowedsections self; calls := calls self |})
    | None =>
        (PyNone,
         {| docid := docid self; cats := cats self;
            textlines := textlines self ++ [line];
            callback := callback self;
            sectionheader := sectionheader self;
            allowedsections := allowedsections self; calls := calls self |})
    end.

Definition smart_onFinish : method SMARTParser := λ line self,
  (PyNone, doCallBack self).

Definition cls : machine SMARTParser :=
  {| dir := [("onFinish", smart_onFinish); ("onGotDocId", onGotDocId);
             ("onMisc", onMisc); ("onSawDotC", onSawDotC);
             ("onSectionHeader", onSectionHeader);
             ("onSectionText", onSectionText)];
     start := "Misc";
     onFinish := smart_onFinish |}.

(** A section as the state functions read it: the header line and the
    text lines after it. *)
Record section : Type := mkSection {
  sec_header : string;
  sec_text : list string
}.

(** A document: the [.I] line, lines up to the [.C] line, the line of
    categories, the first section (whose header is whatever line
    follows the categories) and the later sections. *)
Record doc : Type := mkDoc {
  doc_id_line : string;
  doc_gap : list string;
  doc_c_line : string;
  doc_cats_line : string;
  doc_first : section;
  doc_rest : list section
}.

Definition section_lines (sec : section) : list string :=
  sec_header sec :: sec_text sec.

Definition doc_lines (d : doc) : list string :=
  doc_id_line d :: doc_gap d ++ doc_c_line d :: doc_cats_line d
    :: section_lines (doc_first d) ++ concat (section_lines <$> doc_rest d).

Definition text_ok (sec : section) : Prop :=
  Forall (λ l, startswith l "." = false) (sec_text sec).

Definition well_formed (d : doc) : Prop :=
  startswith (doc_id_line d) ".I" = true ∧
  Forall (λ l, startswith l ".C" = false) (doc_gap d) ∧
  startswith (doc_c_line d) ".C" = true ∧
  text_ok (doc_first d) ∧
  Forall (λ sec, startswith (sec_header sec) "." = true ∧
                 startswith (sec_header sec) ".I" = false ∧
                 text_ok sec) (doc_rest d).

(** Whether text is buffered under section header [h]: the test of
    [onSectionText], negated. *)
Definition keeps (allowed : option (list string)) (h : option string) : bool :=
  match allowed with
  | Some a => negb (header_not_in h a)
  | None => true
  end.

(** The text lines of a section that are buffered. *)
Definition section_text (allowed : option (list string)) (sec : section)
  : list string :=
  if keeps allowed (Some (slice (sec_header sec) 1 2)) then sec_text sec
  else [].

Definition doc_text (allowed : option (list string)) (d : doc) : list string :=
  concat (section_text allowed <$> doc_first d :: doc_rest d).

(** What the callback is to receive for a document, if anything. *)
Definition doc_record (allowed : option (list string)) (d : doc) : record :=
  (Some (strip (slice_from (doc_id_line d) 2)),
   Some (cat_regex_groups (doc_cats_line d)),
   join (doc_text allowed d)).

Definition doc_delivery (allowed : option (list string)) (d : doc)
  : option record :=
  if (length (doc_text allowed d) =? 0)%nat then None
  else Some (doc_record allowed d).

(** The instance with [ls] appended to its buffer of text lines. *)
Definition buffer (self : SMARTParser) (ls : list string) : SMARTParser :=
  {| docid := docid self; cats := cats self;
     textlines := textlines self ++ ls; callback := callback self;
     sectionheader := sectionheader self;
     allowedsections := allowedsections self; calls := calls self |}.

(** The instance once a section has been read. *)
Definition read_section (self : SMARTParser) (sec : section) : SMARTParser :=
  {| docid := docid self; cats := cats self;
     textlines := textlines self ++ section_text (allowedsections self) sec;
     callback := callback self;
     sectionheader := Some (slice (sec_header sec) 1 2);
     allowedsections := allowedsections self; calls := calls self |}.

(** The instance once a document has been read, from [self]. *)
Definition read_doc (self : SMARTParser) (d : doc) : SMARTParser :=
  foldl read_section
    (onSawDotC (doc_cats_line d)
       (onMisc (doc_id_line d) (doCallBack self)).2).2
    (doc_first d :: doc_rest d).

(** Where a document may start: before any document, or in the text of
    the one before. *)
Definition ready (fr : frame SMARTParser) : Prop :=
  f_state fr = "SectionText" ∨
  (f_state fr = "Misc" ∧ textlines (f_self fr) = []).

(** The states the class defines a function for and ever moves to. *)
Definition is_state (s : string) : Prop :=
  s = "Misc" ∨ s = "GotDocId" ∨ s = "SawDotC" ∨ s = "SectionHeader"
  ∨ s = "SectionText".

(** A record with a document id, categories and some text. *)
Definition complete (r : record) : Prop :=
  is_Some r.1.1 ∧ is_Some r.1.2 ∧ r.2 ≠ "".

(** What holds of the instance in each state, on a source without
    empty lines. *)
Definition state_inv (st : string) (self : SMARTParser) : Prop :=
  Forall complete (calls self) ∧
  Forall (λ l, l ≠ "") (textlines self) ∧
  ((st = "Misc" ∧ textlines self = []) ∨
   (st = "GotDocId" ∧ textlines self = [] ∧ is_Some (docid self)) ∨
   (st = "SawDotC" ∧ textlines self = [] ∧ is_Some (docid self)) ∨
   (st = "SectionHeader" ∧ textlines self = [] ∧ is_Some (docid self)
      ∧ is_Some (cats self)) ∨
   (st = "SectionText" ∧ is_Some (docid self) ∧ is_Some (cats self))).

(** The instance with another callback. *)
Definition set_callback (cb : list record → record → pyret)
    (self : SMARTParser) : SMARTParser :=
  {| docid := docid self; cats := cats self; textlines := textlines self;
     callback := cb; sectionheader := sectionheader self;
     allowedsections := allowedsections self; calls := calls self |}.

Definition frame_set_callback (cb : list record → record → pyret)
    (fr : frame SMARTParser) : frame SMARTParser :=
  mkFrame (f_state fr) (f_line fr) (set_callback cb (f_self fr)) (f_trace fr).

(** [SMARTParser(fin, callback, sections).parse()] *)
Definition run (cb : list record → record → pyret)
    (sections : option (list string)) (fin : list string)
  : result unit * SMARTParser * list event :=
  parse cls fin (init cb sections).

End SMARTParser.

End IO.

(** ** Concrete inputs *)

Module Examples.
Import Py AtomFactory IO.

(** The factory of the class docstring: ["apples"] then ["oranges"]. *)
Definition fruit : AtomFactory string :=
  (getitem "oranges" (getitem "apples" (init "tokens")).2).2.

Definition empty_factory : AtomFactory string := init "other".

(** The same with ["pears"] added, and what [remove] makes of it. *)
Definition fruit3 : AtomFactory string := (getitem "pears" fruit).2.

Definition no_oranges : AtomFactory string := remove_spec ["oranges"] fruit3.

(** A vector over the three atoms of [fruit3], and one with an atom
    that [fruit3] never assigned. *)
Definition counts : list (Z * nat) := [(1, 10%nat); (2, 20%nat); (3, 30%nat)].

Definition counts_stray : list (Z * nat) := [(1, 10%nat); (7, 70%nat)].

(** Factories keyed by [(type, object)] tuples, as the class docstring
    suggests: the second knows only the first object of the first. *)
Definition tagged : AtomFactory (string * string) :=
  (getitem ("token", "oranges")
     (getitem ("token", "apples") (init "tagged")).2).2.

Definition tagged_apples : AtomFactory (string * string) :=
  (getitem ("token", "apples") (init "tagged")).2.

Definition nl : string := String "010"%char "".

(** A callback that asks to stop every time, and one that never does. *)
Definition cb_stop {R : Type} : list R → R → pyret := λ _ _, PyFalse.
Definition cb_go {R : Type} : list R → R → pyret := λ _ _, PyNone.

(** Two TREC documents. *)
Definition trec_two_docs : list string :=
  ["<DOCNO> D1 </DOCNO>" +:+ nl; "<TEXT>" +:+ nl; "hello" +:+ nl;
   "world" +:+ nl; "</TEXT>" +:+ nl;
   "<DOCNO> D2 </DOCNO>" +:+ nl; "<TEXT>" +:+ nl; "again" +:+ nl;
   "</TEXT>" +:+ nl].

Definition trec_first_text : list string :=
  ["<DOCNO> D1 </DOCNO>" +:+ nl; "<TEXT>" +:+ nl; "hello" +:+ nl;
   "world" +:+ nl].

Definition trec_close : string := "</TEXT>" +:+ nl.

Definition trec_second_doc : list string :=
  ["<DOCNO> D2 </DOCNO>" +:+ nl; "<TEXT>" +:+ nl; "again" +:+ nl;
   "</TEXT>" +:+ nl].

(** A TREC source cut off inside the TEXT section of its second
    document. *)
Definition trec_truncated : list string :=
  ["<DOCNO> D1 </DOCNO>" +:+ nl; "<TEXT>" +:+ nl; "hello" +:+ nl;
   "</TEXT>" +:+ nl;
   "<DOCNO> D2 </DOCNO>" +:+ nl; "<TEXT>" +:+ nl; "again" +:+ nl].

(** A SMART instance that has read [.I 1], and lines with no [.C]. *)
Definition smart_got_id : SMARTParser.SMARTParser :=
  (SMARTParser.onMisc (".I 1" +:+ nl) (SMARTParser.init cb_go None)).2.

Definition smart_no_dotC : list string :=
  [".I 2" +:+ nl; "stray" +:+ nl; ".W" +:+ nl].

(** The two documents of [trec_two_docs], wrapped in [<DOC>] lines. *)
Definition trec_doc1 : TrecParser.doc :=
  {| TrecParser.doc_id_line := "<DOCNO> D1 </DOCNO>" +:+ nl;
     TrecParser.doc_gap := ["<TITLE>first</TITLE>" +:+ nl];
     TrecParser.doc_open := "<TEXT>" +:+ nl;
     TrecParser.doc_body := ["hello" +:+ nl; "world" +:+ nl];
     TrecParser.doc_close := "</TEXT>" +:+ nl;
     TrecParser.doc_trail := ["</DOC>" +:+ nl; "<DOC>" +:+ nl] |}.

Definition trec_doc2 : TrecParser.doc :=
  {| TrecParser.doc_id_line := "<DOCNO> D2 </DOCNO>" +:+ nl;
     TrecParser.doc_gap := [];
     TrecParser.doc_open := "<TEXT>" +:+ nl;
     TrecParser.doc_body := ["again" +:+ nl];
     TrecParser.doc_close := "</TEXT>" +:+ nl;
     TrecParser.doc_trail := ["</DOC>" +:+ nl] |}.

(** A callback that asks to stop on its second record. *)
Definition cb_second {R : Type} : list R → R → pyret :=
  λ log _, if (length log =? 1)%nat then PyFalse else PyNone.

(** The class with the start state [StateMachineFileParser.__init__]
    defaults to, for which it has no function. *)
Definition trec_default_start : machine TrecParser.TrecParser :=
  {| dir := dir TrecParser.cls; start := "Start";
     onFinish := base_onFinish |}.

(** The two documents of [smart_two_docs], with a title section each. *)
Definition smart_doc1 : SMARTParser.doc :=
  {| SMARTParser.doc_id_line := ".I 1" +:+ nl;
     SMARTParser.doc_gap := [];
     SMARTParser.doc_c_line := ".C" +:+ nl;
     SMARTParser.doc_cats_line := "cat1 1 cat2 1" +:+ nl;
     SMARTParser.doc_first :=
       SMARTParser.mkSection (".T" +:+ nl) ["a title" +:+ nl];
     SMARTParser.doc_rest :=
       [SMARTParser.mkSection (".W" +:+ nl) ["hello world" +:+ nl]] |}.

Definition smart_doc2 : SMARTParser.doc :=
  {| SMARTParser.doc_id_line := ".I 2" +:+ nl;
     SMARTParser.doc_gap := [];
     SMARTParser.doc_c_line := ".C" +:+ nl;
     SMARTParser.doc_cats_line := "cat3 1" +:+ nl;
     SMARTParser.doc_first :=
       SMARTParser.mkSection (".T" +:+ nl) ["another title" +:+ nl];
     SMARTParser.doc_rest := [] |}.

(** Two SMART documents. *)
Definition smart_two_docs : list string :=
  [".I 1" +:+ nl; ".C" +:+ nl; "cat1 1 cat2 1" +:+ nl; ".W" +:+ nl;
   "hello world" +:+ nl;
   ".I 2" +:+ nl; ".C" +:+ nl; "cat3 1" +:+ nl; ".W" +:+ nl;
   "again" +:+ nl].

End Examples.

(** * Properties of AtomFactory *)

Module AtomFactoryFacts.
Import Py AtomFactory.

Section Facts.
Context {K : Type} `{Countable K} `{!Formattable K}.
Implicit Types (f g : AtomFactory K) (o obj : K) (a : Z).

Lemma list_index_in_range {A} (l : list A) (i : Z) :
  0 ≤ i < Z.of_nat (length l) →
  ∃ x, l !! Z.to_nat i = Some x ∧ list_index l i = Return x.
Proof.
  intros Hi. unfold list_index.
  destruct (i <? 0) eqn:E1; [lia|].
  destruct ((i <? 0) || (Z.of_nat (length l) <=? i)) eqn:E2.
  { apply orb_true_iff in E2 as [?|?]; lia. }
  destruct (l !! Z.to_nat i) as [x|] eqn:E3; [eauto|].
  apply lookup_ge_None in E3. lia.
Qed.

Lemma list_index_above {A} (l : list A) (i : Z) :
  Z.of_nat (length l) ≤ i → list_index l i = Raise IndexError.
Proof.
  intros Hi. unfold list_index.
  destruct (i <? 0) eqn:E1; [lia|].
  destruct ((i <? 0) || (Z.of_nat (length l) <=? i)) eqn:E2; [done|].
  apply orb_false_iff in E2 as [? ?]; lia.
Qed.

Lemma list_index_below {A} (l : list A) (i : Z) :
  i < - Z.of_nat (length l) → list_index l i = Raise IndexError.
Proof.
  intros Hi. unfold list_index.
  destruct (i <? 0) eqn:E1; [|lia].
  destruct ((i + Z.of_nat (length l) <? 0) || _) eqn:E2; [done|].
  apply orb_false_iff in E2 as [? ?]; lia.
Qed.

Lemma list_index_negative {A} (l : list A) (i : Z) :
  - Z.of_nat (length l) ≤ i < 0 →
  list_index l i = list_index l (i + Z.of_nat (length l)).
Proof.
  intros Hi.
  assert ((i <? 0) = true) as E1 by lia.
  assert ((i + Z.of_nat (length l) <? 0) = false) as E2 by lia.
  unfold list_index. by rewrite E1, !E2.
Qed.

(** The invariant holds of a new factory. *)
Lemma inv_init nm : bimap_inv (init (K:=K) nm).
Proof.
  split; simpl.
  - by rewrite map_size_empty.
  - unfold len; simpl; lia.
  - intros ????? Hl. by rewrite lookup_empty in Hl.
  - intros ?? Hl. by rewrite lookup_empty in Hl.
Qed.

(** Under the invariant an object sits where its atom says. *)
Lemma inv_bwd_fwd f o a :
  bimap_inv f → obj_to_atom f !! o = Some a →
  atom_to_obj f !! Z.to_nat (a - 1) = Some o.
Proof.
  intros Hinv Ho.
  destruct (inv_fwd_bwd f Hinv a (inv_contiguous f Hinv o a Ho)) as (o' & Hl & Ho').
  destruct (decide (o' = o)) as [->|Hne]; [done|].
  by destruct (inv_distinct f Hinv o' o a a Hne Ho' Ho).
Qed.

Lemma getitem_present f o a :
  obj_to_atom f !! o = Some a → getitem o f = (Return a, f).
Proof. intros Ho. unfold getitem. by rewrite Ho. Qed.


Lemma getitem_fresh f o :
  obj_to_atom f !! o = None → locked f = false →
  getitem o f =
    (Return (len f + 1),
     {| name := name f; obj_to_atom := <[o := len f + 1]> (obj_to_atom f);
        atom_to_obj := atom_to_obj f ++ [o]; locked := false |}).
Proof. intros Ho Hl. unfold getitem. rewrite Ho, Hl. done. Qed.

Lemma inv_getitem f o : bimap_inv f → bimap_inv (getitem o f).2.
Proof.
  intros Hinv. unfold getitem.
  destruct (obj_to_atom f !! o) as [a|] eqn:Ho; [done|].
  destruct (locked f); [done|]. simpl.
  pose proof (inv_len f Hinv) as Hlen.
  split; simpl.
  - rewrite length_app, map_size_insert_None by done. simpl. lia.
  - unfold len; simpl. rewrite length_app; simpl. intros a Ha.
    destruct (decide (a = Z.of_nat (length (atom_to_obj f)) + 1)) as [->|Hne].
    + exists o. split.
      * replace (Z.to_nat (Z.of_nat (length (atom_to_obj f)) + 1 - 1))
          with (length (atom_to_obj f) + 0)%nat by lia.
        by rewrite lookup_app_r, Nat.add_comm, Nat.add_sub by lia.
      * by rewrite lookup_insert_eq.
    + destruct (inv_fwd_bwd f Hinv a) as (o' & Hl & Ho'); [unfold len; lia|].
      exists o'. split.
      * by rewrite lookup_app_l by (apply lookup_lt_Some in Hl; done).
      * rewrite lookup_insert_ne; [done|]. intros ->. congruence.
  - intros o1 o2 a1 a2 Hne H1 H2.
    destruct (decide (o = o1)) as [<-|N1]; destruct (decide (o = o2)) as [<-|N2].
    + done.
    + rewrite lookup_insert_eq in H1. rewrite lookup_insert_ne in H2 by done.
      injection H1 as <-.
      apply (inv_contiguous f Hinv) in H2. unfold len in H2. lia.
    + rewrite lookup_insert_eq in H2. rewrite lookup_insert_ne in H1 by done.
      injection H2 as <-.
      apply (inv_contiguous f Hinv) in H1. unfold len in H1. lia.
    + rewrite lookup_insert_ne in H1, H2 by done.
      exact (inv_distinct f Hinv _ _ _ _ Hne H1 H2).
  - unfold len; simpl. rewrite length_app; simpl. intros o' a Hl.
    rewrite lookup_insert in Hl. case_decide; simplify_eq; [lia|].
    apply (inv_contiguous f Hinv) in Hl. unfold len in Hl. lia.
Qed.

Lemma stable_refl f : stable f f.
Proof. by split. Qed.

Lemma stable_getitem f o : stable f (getitem o f).2.
Proof.
  unfold getitem.
  destruct (obj_to_atom f !! o) as [a|] eqn:Ho; [apply stable_refl|].
  destruct (locked f); [apply stable_refl|].
  split; simpl.
  - by apply prefix_app_r.
  - by apply insert_subseteq.
Qed.

Lemma getitem_unlocked f o :
  locked f = false →
  ∃ a, getitem o f = (Return a, (getitem o f).2) ∧ locked (getitem o f).2 = false.
Proof.
  intros Hl. unfold getitem.
  destruct (obj_to_atom f !! o) as [a|]; [by exists a|].
  rewrite Hl. simpl. eauto.
Qed.

Lemma getitem_name f o : name (getitem o f).2 = name f.
Proof.
  unfold getitem. destruct (obj_to_atom f !! o); [done|].
  by destruct (locked f).
Qed.

(** *** Where the objects of a factory are *)

Lemma inv_elem_of f o :
  bimap_inv f → is_Some (obj_to_atom f !! o) ↔ o ∈ atom_to_obj f.
Proof.
  intros Hinv. split.
  - intros [a Ha]. apply list_elem_of_lookup.
    exists (Z.to_nat (a - 1)). by apply inv_bwd_fwd.
  - intros (i & Hi)%list_elem_of_lookup.
    pose proof (lookup_lt_Some _ _ _ Hi) as Hlt.
    destruct (inv_fwd_bwd f Hinv (Z.of_nat i + 1)) as (o' & Hl & Ho');
      [unfold len; lia|].
    replace (Z.to_nat (Z.of_nat i + 1 - 1)) with i in Hl by lia.
    simplify_eq. eauto.
Qed.

Lemma inv_NoDup f : bimap_inv f → NoDup (atom_to_obj f).
Proof.
  intros Hinv. apply NoDup_alt. intros i j o Hi Hj.
  pose proof (lookup_lt_Some _ _ _ Hi) as Hlti.
  pose proof (lookup_lt_Some _ _ _ Hj) as Hltj.
  destruct (inv_fwd_bwd f Hinv (Z.of_nat i + 1)) as (oi & Hli & Hoi);
    [unfold len; lia|].
  destruct (inv_fwd_bwd f Hinv (Z.of_nat j + 1)) as (oj & Hlj & Hoj);
    [unfold len; lia|].
  replace (Z.to_nat (Z.of_nat i + 1 - 1)) with i in Hli by lia.
  replace (Z.to_nat (Z.of_nat j + 1 - 1)) with j in Hlj by lia.
  simplify_eq. lia.
Qed.

(** *** [insert_all] *)

Lemma insert_all_cons o objs f :
  insert_all (o :: objs) f = insert_all objs (getitem o f).2.
Proof. done. Qed.

Lemma insert_all_inv objs f : bimap_inv f → bimap_inv (insert_all objs f).
Proof.
  revert f. induction objs as [|o objs IH]; intros f Hinv; [done|].
  rewrite insert_all_cons. by apply IH, inv_getitem.
Qed.

Lemma insert_all_unlocked objs f :
  locked f = false → locked (insert_all objs f) = false.
Proof.
  revert f. induction objs as [|o objs IH]; intros f Hl; [done|].
  rewrite insert_all_cons. apply IH.
  by destruct (getitem_unlocked f o Hl) as (a & _ & ?).
Qed.

Lemma insert_all_name objs f : name (insert_all objs f) = name f.
Proof.
  revert f. induction objs as [|o objs IH]; intros f; [done|].
  by rewrite insert_all_cons, IH, getitem_name.
Qed.

(** Distinct new objects are appended as they come. *)
Lemma insert_all_fresh objs f :
  bimap_inv f → locked f = false → NoDup (atom_to_obj f ++ objs) →
  atom_to_obj (insert_all objs f) = atom_to_obj f ++ objs.
Proof.
  revert f. induction objs as [|o objs IH]; intros f Hinv Hl Hnd.
  { by rewrite app_nil_r. }
  rewrite insert_all_cons.
  assert (obj_to_atom f !! o = None) as Ho.
  { apply eq_None_not_Some. rewrite (inv_elem_of f o Hinv).
    apply NoDup_app in Hnd as (_ & Hdisj & _).
    intros Hin. apply (Hdisj o Hin). left. }
  pose proof (inv_getitem f o Hinv) as Hinv'.
  rewrite (getitem_fresh f o Ho Hl) in Hinv' |- *. simpl in *.
  rewrite IH; simpl; [by rewrite <-app_assoc|done|done|by rewrite <-app_assoc].
Qed.

(** *** The loop of [remove] *)

Lemma remove_loop_spec (S : gset K) objs g :
  locked g = false →
  remove_loop S objs g = Return (insert_all (filter (λ obj, obj ∉ S) objs) g).
Proof.
  revert g. induction objs as [|o objs IH]; intros g Hl; [done|].
  simpl. unfold remove_step. rewrite filter_cons.
  destruct (decide (o ∉ S)) as [Hin|Hin].
  - rewrite bool_decide_eq_true_2 by done.
    destruct (getitem_unlocked g o Hl) as (a & Hg & Hl').
    rewrite Hg, insert_all_cons. simpl. by apply IH.
  - rewrite bool_decide_eq_false_2 by done. simpl. by apply IH.
Qed.

Lemma remove_spec_objects objects f :
  bimap_inv f →
  atom_to_obj (remove_spec objects f)
  = filter (λ obj, obj ∉ (list_to_set objects : gset K)) (atom_to_obj f).
Proof.
  intros Hinv. unfold remove_spec.
  rewrite insert_all_fresh; [done|apply inv_init|done|].
  simpl. by apply NoDup_filter, inv_NoDup.
Qed.

(** [convertAtom] never changes either factory. *)
Lemma convertAtom_pure (oldAF newAF : AtomFactory K) atom :
  (convertAtom oldAF newAF atom).2 = (oldAF, newAF).
Proof.
  unfold convertAtom. destruct (get_object atom oldAF) as [o|e]; [|done].
  unfold contains. destruct (obj_to_atom newAF !! o) as [a|] eqn:Ho.
  - rewrite bool_decide_eq_true_2 by eauto. simpl.
    by rewrite (getitem_present newAF o a Ho).
  - rewrite bool_decide_eq_false_2 by (by intros [? ?]). simpl.
    by destruct (formats o).
Qed.

(** *** The invariant along any sequence of calls *)

Lemma exec_inv (o : op) f : bimap_inv f → bimap_inv (exec o f).2.
Proof.
  intros Hinv. destruct o as [obj|a|a| |obj| |objects]; simpl; try done.
  - destruct (getitem obj f) as [r f'] eqn:Hg. simpl.
    replace f' with (getitem obj f).2 by (by rewrite Hg).
    by apply inv_getitem.
  - by destruct Hinv.
Qed.

Lemma exec_all_inv (ops : list (@op K)) nm :
  bimap_inv (exec_all ops (init nm)).
Proof.
  unfold exec_all. generalize (inv_init nm). generalize (init (K:=K) nm).
  induction ops as [|o ops IH]; intros f Hinv; [done|].
  simpl. by apply IH, exec_inv.
Qed.

Lemma stable_trans f g h : stable f g → stable g h → stable f h.
Proof. intros [Hl1 Hm1] [Hl2 Hm2]. split; by etrans. Qed.

Lemma exec_stable (o : op) f : stable f (exec o f).2.
Proof.
  destruct o as [obj|a|a| |obj| |objects]; simpl; try apply stable_refl.
  - destruct (getitem obj f) as [r f'] eqn:Hg. simpl.
    replace f' with (getitem obj f).2 by (by rewrite Hg).
    apply stable_getitem.
  - by split.
Qed.

Lemma exec_all_from (ops : list (@op K)) f :
  bimap_inv f → bimap_inv (exec_all ops f) ∧ stable f (exec_all ops f).
Proof.
  unfold exec_all. revert f.
  induction ops as [|o ops IH]; intros f Hinv; [split; [done|apply stable_refl]|].
  simpl. destruct (IH (exec o f).2 (exec_inv o f Hinv)) as [Hinv' Hst].
  split; [done|]. eapply stable_trans; [apply exec_stable|done].
Qed.

(** A lookup that returns has recorded the object under the atom
    returned. *)
Lemma getitem_records f obj a :
  (getitem obj f).1 = Return a → obj_to_atom (getitem obj f).2 !! obj = Some a.
Proof.
  unfold getitem. destruct (obj_to_atom f !! obj) as [a0|] eqn:Ho.
  - simpl. by intros [= <-].
  - destruct (locked f); [done|]. simpl. intros [= <-].
    by rewrite lookup_insert_eq.
Qed.

Lemma get_object_of_atom f obj a :
  bimap_inv f → obj_to_atom f !! obj = Some a → get_object a f = Return obj.
Proof.
  intros Hinv Ho.
  pose proof (inv_contiguous f Hinv obj a Ho) as Ha. unfold len in Ha.
  pose proof (inv_bwd_fwd f obj a Hinv Ho) as Hl.
  destruct (list_index_in_range (atom_to_obj f) (a - 1)) as (x & Hx & Hr); [lia|].
  unfold get_object. rewrite Hr. by simplify_eq.
Qed.

Lemma exec_getitem obj f :
  exec (OpGetitem obj) f = (VAtom (getitem obj f).1, (getitem obj f).2).
Proof. simpl. by destruct (getitem obj f). Qed.

(** *** Main results *)

(** C4, as amended: [get_object(a)] raises [IndexError] exactly when
    [a > size()] or [a <= -size()]; for [1 <= a <= size()] it returns the
    object that was assigned atom [a]; for [-size() < a <= 0] Python's
    negative indexing makes it return the object of atom [a + size()]. *)
Theorem get_object_range f a (Hinv : bimap_inv f) :
  (a > len f ∨ a ≤ - len f → get_object a f = Raise IndexError) ∧
  (1 ≤ a ≤ len f →
     ∃ o, get_object a f = Return o ∧ obj_to_atom f !! o = Some a) ∧
  (- len f < a ≤ 0 →
     ∃ o, get_object a f = Return o ∧ obj_to_atom f !! o = Some (a + len f)).
Proof.
  unfold get_object, len. split; [|split].
  - intros [Ha|Ha].
    + apply list_index_above. lia.
    + apply list_index_below. lia.
  - intros Ha.
    destruct (list_index_in_range (atom_to_obj f) (a - 1)) as (o & Hl & Hr); [lia|].
    exists o. split; [done|].
    destruct (inv_fwd_bwd f Hinv a) as (o' & Hl' & Ho'); [unfold len; lia|].
    by simplify_eq.
  - intros Ha. rewrite list_index_negative by lia.
    destruct (list_index_in_range (atom_to_obj f)
                (a - 1 + Z.of_nat (length (atom_to_obj f)))) as (o & Hl & Hr); [lia|].
    exists o. split; [done|].
    destruct (inv_fwd_bwd f Hinv (a + len f)) as (o' & Hl' & Ho'); [unfold len; lia|].
    unfold len in *.
    replace (a + Z.of_nat (length (atom_to_obj f)) - 1)
      with (a - 1 + Z.of_nat (length (atom_to_obj f))) in Hl' by lia.
    by simplify_eq.
Qed.

(** C5, as amended: [convertAtom] resolves [atom] in [oldAF] (raising
    what [get_object] raises) and then only looks the object up in
    [newAF]: a present object yields its atom; an absent one makes the
    call fail whether or not [newAF] is locked, with [IllegalOperation]
    when the object formats into the message and with the [TypeError]
    of the formatting when it does not; [newAF] is never modified. *)
Theorem convertAtom_lookup_only (oldAF newAF : AtomFactory K) atom :
  match get_object atom oldAF with
  | Raise e => convertAtom oldAF newAF atom = (Raise e, (oldAF, newAF))
  | Return o =>
      match obj_to_atom newAF !! o with
      | Some a' => convertAtom oldAF newAF atom = (Return a', (oldAF, newAF))
      | None =>
          convertAtom oldAF newAF atom
          = (Raise (if formats o then IllegalOperation else TypeError),
             (oldAF, newAF))
      end
  end.
Proof.
  unfold convertAtom. destruct (get_object atom oldAF) as [o|e]; [|done].
  unfold contains. destruct (obj_to_atom newAF !! o) as [a'|] eqn:Ho.
  - rewrite bool_decide_eq_true_2 by eauto. simpl.
    by rewrite (getitem_present newAF o a' Ho).
  - rewrite bool_decide_eq_false_2 by (by intros [? ?]). simpl.
    by destruct (formats o).
Qed.

(** C6: every method keeps the bimap invariant on the receiver and on
    any factory it returns; in-place mutation only appends, so no atom
    is reused or renumbered; an unseen object gets the next atom,
    [size() + 1], above every atom assigned before; a lookup that
    returns has recorded its object under the atom returned, and
    [get_object] gives the object back; two distinct objects looked up,
    with any calls in between, receive distinct atoms, and the first
    keeps its atom. *)
Theorem bimap_inv_preserved (o : op) f (Hinv : bimap_inv f) :
  bimap_inv (exec o f).2 ∧
  stable f (exec o f).2 ∧
  (∀ g, returned_factory (exec o f).1 = Some g → bimap_inv g) ∧
  (∀ obj, o = OpGetitem obj → obj_to_atom f !! obj = None → locked f = false →
     (exec o f).1 = VAtom (Return (len f + 1))) ∧
  (∀ obj a, o = OpGetitem obj → (exec o f).1 = VAtom (Return a) →
     obj_to_atom (exec o f).2 !! obj = Some a ∧
     get_object a (exec o f).2 = Return obj) ∧
  (∀ obj a, o = OpGetitem obj → (exec o f).1 = VAtom (Return a) →
     obj_to_atom f !! obj = None →
     ∀ obj' a', obj_to_atom f !! obj' = Some a' → a' < a) ∧
  (∀ obj1 a1 obj2 a2 (ops : list op),
     o = OpGetitem obj1 → (exec o f).1 = VAtom (Return a1) →
     (exec (OpGetitem obj2) (exec_all ops (exec o f).2)).1
     = VAtom (Return a2) →
     obj1 ≠ obj2 →
     a1 ≠ a2 ∧
     obj_to_atom (exec (OpGetitem obj2) (exec_all ops (exec o f).2)).2
       !! obj1 = Some a1).
Proof.
  assert (bimap_inv (exec o f).2) as Hinv1 by (by apply exec_inv).
  split_and!; [done|apply exec_stable| | | | |].
  - destruct o as [obj|a|a| |obj| |objects]; simpl; try done.
    + by destruct (getitem obj f).
    + intros g. rewrite remove_loop_spec by done. intros [= <-].
      apply insert_all_inv, inv_init.
  - intros obj -> Hnone Hl. rewrite exec_getitem. simpl.
    by rewrite (getitem_fresh f obj Hnone Hl).
  - intros obj a -> Hret. rewrite exec_getitem in Hret, Hinv1 |- *.
    simpl in *. injection Hret as Hret.
    pose proof (getitem_records f obj a Hret) as Hrec.
    split; [done|]. by apply get_object_of_atom.
  - intros obj a -> Hret Hnone obj' a' Hold.
    rewrite exec_getitem in Hret. simpl in Hret. injection Hret as Hret.
    unfold getitem in Hret. rewrite Hnone in Hret.
    destruct (locked f); [done|]. simpl in Hret. injection Hret as <-.
    apply (inv_contiguous f Hinv) in Hold. unfold len in Hold. lia.
  - intros obj1 a1 obj2 a2 ops -> Hret1 Hret2 Hne.
    rewrite exec_getitem in Hret1, Hinv1, Hret2 |- *. simpl in Hret1, Hinv1.
    injection Hret1 as Hret1.
    pose proof (getitem_records f obj1 a1 Hret1) as Hrec1.
    set (f1 := (getitem obj1 f).2) in *.
    destruct (exec_all_from ops f1 Hinv1) as [Hinv' [_ Hsub]].
    rewrite exec_getitem in Hret2 |- *. simpl in Hret2 |- *.
    injection Hret2 as Hret2.
    pose proof (getitem_records (exec_all ops f1) obj2 a2 Hret2) as Hrec2.
    pose proof (inv_getitem (exec_all ops f1) obj2 Hinv') as Hinv2.
    destruct (stable_getitem (exec_all ops f1) obj2) as [_ Hsub2].
    assert (obj_to_atom (getitem obj2 (exec_all ops f1)).2 !! obj1 = Some a1)
      as Hkeep.
    { eapply lookup_weaken; [|exact Hsub2].
      eapply lookup_weaken; [exact Hrec1|exact Hsub]. }
    split; [|done].
    exact (inv_distinct _ Hinv2 obj1 obj2 a1 a2 Hne Hkeep Hrec2).
Qed.

(** C7: [remove] returns the factory obtained by inserting the retained
    objects, in the receiver's order, into a fresh factory; that factory
    is unlocked and its atoms are dense from 1; the receiver is left as
    it was. *)
Theorem remove_builds_fresh (objects : list K) f :
  remove objects f = (Return (remove_spec objects f), f) ∧
  locked (remove_spec objects f) = false ∧
  name (remove_spec objects f) = name f ∧
  bimap_inv (remove_spec objects f).
Proof.
  unfold remove, remove_spec. split_and!.
  - by rewrite remove_loop_spec.
  - by apply insert_all_unlocked.
  - by rewrite insert_all_name.
  - apply insert_all_inv, inv_init.
Qed.


End Facts.

(** *** The factory of the docstring *)

Import Examples.

Lemma fruit_inv : bimap_inv fruit.
Proof. apply inv_getitem, inv_getitem, inv_init. Qed.

Lemma get_object_range_witness :
  bimap_inv fruit ∧
  (2 > len fruit ∨ 2 ≤ - len fruit → get_object 2 fruit = Raise IndexError) ∧
  (1 ≤ 2 ≤ len fruit →
     ∃ o, get_object 2 fruit = Return o ∧ obj_to_atom fruit !! o = Some 2) ∧
  (- len fruit < 2 ≤ 0 →
     ∃ o, get_object 2 fruit = Return o
          ∧ obj_to_atom fruit !! o = Some (2 + len fruit)).
Proof.
  split; [exact fruit_inv|].
  exact (get_object_range fruit 2 fruit_inv).
Defined.

(** C4 as stated fails: atom [0] is not rejected, it reads the last
    object. *)
Lemma get_object_zero_returns :
  ¬ (∀ (f : AtomFactory string) (a : Z),
       a ≤ 0 ∨ a > len f → get_object a f = Raise IndexError).
Proof.
  intros Hclaim.
  assert (get_object 0 fruit = Return "oranges") as Hrun by reflexivity.
  rewrite (Hclaim fruit 0) in Hrun by (left; lia).
  discriminate.
Qed.

(** C5 as stated fails: an object unseen in an unlocked target is not
    inserted, the call raises. *)
Lemma convertAtom_unlocked_raises :
  ¬ (∀ (oldAF newAF : AtomFactory string) (atom : Z) (o : string),
       get_object atom oldAF = Return o →
       contains o newAF = false →
       locked newAF = false →
       ∃ a newAF', convertAtom oldAF newAF atom = (Return a, (oldAF, newAF'))).
Proof.
  intros Hclaim.
  destruct (Hclaim fruit empty_factory 1 "apples") as (a & g & Hrun);
    [reflexivity..|].
  assert (convertAtom fruit empty_factory 1
          = (Raise IllegalOperation, (fruit, empty_factory))) as Hreal
    by reflexivity.
  rewrite Hreal in Hrun. discriminate.
Qed.

Lemma bimap_inv_preserved_witness :
  bimap_inv fruit ∧
  bimap_inv (exec (OpGetitem "pears") fruit).2 ∧
  stable fruit (exec (OpGetitem "pears") fruit).2 ∧
  (∀ g, returned_factory (exec (OpGetitem "pears") fruit).1 = Some g →
        bimap_inv g) ∧
  (∀ obj, OpGetitem "pears" = OpGetitem obj →
     obj_to_atom fruit !! obj = None → locked fruit = false →
     (exec (OpGetitem "pears") fruit).1 = VAtom (Return (len fruit + 1))) ∧
  (∀ obj a, OpGetitem "pears" = OpGetitem obj →
     (exec (OpGetitem "pears") fruit).1 = VAtom (Return a) →
     obj_to_atom (exec (OpGetitem "pears") fruit).2 !! obj = Some a ∧
     get_object a (exec (OpGetitem "pears") fruit).2 = Return obj) ∧
  (∀ obj a, OpGetitem "pears" = OpGetitem obj →
     (exec (OpGetitem "pears") fruit).1 = VAtom (Return a) →
     obj_to_atom fruit !! obj = None →
     ∀ obj' a', obj_to_atom fruit !! obj' = Some a' → a' < a) ∧
  (∀ obj1 a1 obj2 a2 (ops : list op),
     OpGetitem "pears" = OpGetitem obj1 →
     (exec (OpGetitem "pears") fruit).1 = VAtom (Return a1) →
     (exec (OpGetitem obj2)
        (exec_all ops (exec (OpGetitem "pears") fruit).2)).1
     = VAtom (Return a2) →
     obj1 ≠ obj2 →
     a1 ≠ a2 ∧
     obj_to_atom
       (exec (OpGetitem obj2)
          (exec_all ops (exec (OpGetitem "pears") fruit).2)).2
       !! obj1 = Some a1).
Proof.
  split; [exact fruit_inv|].
  exact (bimap_inv_preserved (OpGetitem "pears") fruit fruit_inv).
Defined.


(** The docstring's assertions, and the scenario of [remove]. *)
Example docstring_atoms :
  (getitem "apples" (init "tokens")).1 = Return 1 ∧
  (getitem "oranges" (getitem "apples" (init "tokens")).2).1 = Return 2 ∧
  call 1 fruit = Return "apples".
Proof. by vm_compute. Qed.

Example remove_middle :
  atom_to_obj (remove_spec ["oranges"] (getitem "pears" fruit).2)
  = ["apples"; "pears"].
Proof. by vm_compute. Qed.

End AtomFactoryFacts.

(** * Properties of the parsing engine and the two parsers *)

Module IOFacts.
Import Py IO Examples.

Section EngineFacts.
Context {S : Type}.
Implicit Types (m : machine S) (fr : frame S) (fns : gmap string (method S)).

Lemma for_loop_cons fns line rest fr :
  for_loop fns (line :: rest) fr =
    match loop_body fns line fr with
    | (Normal, fr') => for_loop fns rest fr'
    | stopped => stopped
    end.
Proof. done. Qed.

Lemma for_loop_app fns xs ys fr :
  for_loop fns (xs ++ ys) fr =
    match for_loop fns xs fr with
    | (Normal, fr') => for_loop fns ys fr'
    | stopped => stopped
    end.
Proof.
  revert fr. induction xs as [|x xs IH]; intros fr; [done|].
  rewrite <-app_comm_cons, !for_loop_cons.
  destruct (loop_body fns x fr) as [[| |e] fr']; [apply IH|done|done].
Qed.

(** A loop that completes normally over [xs ++ ys] did so over [xs]. *)
Lemma for_loop_app_normal fns xs ys fr fr' :
  for_loop fns (xs ++ ys) fr = (Normal, fr') →
  ∃ fr1, for_loop fns xs fr = (Normal, fr1) ∧ for_loop fns ys fr1 = (Normal, fr').
Proof.
  rewrite for_loop_app.
  destruct (for_loop fns xs fr) as [[| |e] fr1]; [eauto|done|done].
Qed.

(** The body binds the loop variable, however it completes. *)
Lemma loop_body_line fns line fr c fr' :
  loop_body fns line fr = (c, fr') → f_line fr' = Some line.
Proof.
  unfold loop_body. destruct (fns !! f_state fr) as [fn|]; [|by intros [= <- <-]].
  destruct (fn line (f_self fr)) as [[| |s] self']; by intros [= <- <-].
Qed.

(** A body that does not raise logs exactly one call, on its line. *)
Lemma loop_body_trace fns line fr c fr' :
  loop_body fns line fr = (c, fr') → c ≠ Throw KeyError →
  f_trace fr' = f_trace fr ++ [EvHandler (f_state fr) line].
Proof.
  unfold loop_body. destruct (fns !! f_state fr) as [fn|]; [|by intros [= <- <-]].
  destruct (fn line (f_self fr)) as [[| |s] self']; by intros [= <- <-].
Qed.

Lemma for_loop_normal_line fns lines fr fr' :
  for_loop fns lines fr = (Normal, fr') →
  f_line fr' = from_option Some (f_line fr) (last lines).
Proof.
  revert fr. induction lines as [|l lines IH]; intros fr; [by intros [= <-]|].
  rewrite for_loop_cons.
  destruct (loop_body fns l fr) as [[| |e] fr1] eqn:Hb; [|done|done].
  intros Hloop. rewrite (IH _ Hloop), (loop_body_line _ _ _ _ _ Hb), last_cons.
  by destruct (last lines).
Qed.

(** The calls of a loop that completes normally are on the lines of the
    source, one each, in order. *)
Lemma for_loop_normal_trace fns lines fr fr' :
  for_loop fns lines fr = (Normal, fr') →
  event_line <$> f_trace fr' = (event_line <$> f_trace fr) ++ lines.
Proof.
  revert fr. induction lines as [|l lines IH]; intros fr.
  { intros [= <-]. by rewrite app_nil_r. }
  rewrite for_loop_cons.
  destruct (loop_body fns l fr) as [[| |e] fr1] eqn:Hb; [|done|done].
  intros Hloop. rewrite (IH _ Hloop), (loop_body_trace _ _ _ _ _ Hb) by done.
  by rewrite fmap_app, <-app_assoc.
Qed.

(** [parse] on a source that is exhausted with at least one line read:
    [onFinish] is called on the last line and [parse] returns. *)
Lemma parse_exhausted m lines l self fr :
  for_loop (introspect m) (lines ++ [l]) (initial_frame m self) = (Normal, fr) →
  parse m (lines ++ [l]) self
  = (Return (), (onFinish m l (f_self fr)).2, f_trace fr ++ [EvFinish l]).
Proof.
  intros Hloop. unfold parse. rewrite Hloop. unfold finish.
  rewrite (for_loop_normal_line _ _ _ _ Hloop), last_snoc. simpl.
  by destruct (onFinish m l (f_self fr)).
Qed.

(** C3 at its failing input: on an empty source the loop variable is
    never bound and [parse] raises instead of calling [onFinish]. *)
Theorem parse_empty_raises m self :
  parse m [] self = (Raise UnboundLocalError, self, []).
Proof. done. Qed.

(** C2, as amended: when a state function returns [False] on a line,
    no later line is read; [onFinish] is then called on that same line
    and [parse] returns.  The calls made are those on the lines before,
    the one on the stopping line, and [onFinish]. *)
Theorem stop_then_finish m pre l post self fr fn self'
    (Hpre : for_loop (introspect m) pre (initial_frame m self) = (Normal, fr))
    (Hfn : introspect m !! f_state fr = Some fn)
    (Hstop : fn l (f_self fr) = (PyFalse, self')) :
  parse m (pre ++ l :: post) self
  = (Return (), (onFinish m l self').2,
     f_trace fr ++ [EvHandler (f_state fr) l; EvFinish l]) ∧
  event_line <$> (parse m (pre ++ l :: post) self).2 = pre ++ [l; l].
Proof.
  assert (parse m (pre ++ l :: post) self
          = (Return (), (onFinish m l self').2,
             f_trace fr ++ [EvHandler (f_state fr) l; EvFinish l])) as Hparse.
  { unfold parse. rewrite for_loop_app, Hpre, for_loop_cons.
    unfold loop_body. rewrite Hfn, Hstop. unfold finish. simpl.
    destruct (onFinish m l self'). by rewrite <-app_assoc. }
  split; [done|]. rewrite Hparse. simpl.
  by rewrite fmap_app, (for_loop_normal_trace _ _ _ _ Hpre).
Qed.

End EngineFacts.

(** ** Callback logs *)

Section Logs.
Context {R : Type}.
Implicit Types (cb : list R → R → pyret) (log : list R) (r : R).

Lemma all_go_nil cb : all_go cb [].
Proof. intros i r Hi. by rewrite lookup_nil in Hi. Qed.

Lemma all_go_snoc cb log r :
  all_go cb log → cb log r ≠ PyFalse → all_go cb (log ++ [r]).
Proof.
  intros Hgo Hr i r' Hi.
  destruct (decide (i < length log)%nat) as [Hlt|Hge].
  - rewrite lookup_app_l in Hi by done.
    rewrite take_app_le by lia. by apply Hgo.
  - pose proof (lookup_lt_Some _ _ _ Hi) as Hlt.
    rewrite length_app in Hlt. simpl in Hlt.
    assert (i = length log) as -> by lia.
    rewrite list_lookup_middle in Hi by done. injection Hi as <-.
    by rewrite take_app_length.
Qed.

Lemma all_go_halts cb log : all_go cb log → halts_on_stop cb log.
Proof. intros Hgo i r Hi Hstop. by destruct (Hgo i r Hi). Qed.

Lemma halts_on_stop_snoc cb log r :
  all_go cb log → halts_on_stop cb (log ++ [r]).
Proof.
  intros Hgo i r' Hi Hstop.
  pose proof (lookup_lt_Some _ _ _ Hi) as Hlt.
  rewrite length_app in Hlt |- *. simpl in *.
  destruct (decide (i < length log)%nat) as [Hlt'|Hge]; [|lia].
  rewrite lookup_app_l in Hi by done.
  rewrite take_app_le in Hstop by lia.
  by destruct (Hgo i r' Hi).
Qed.

End Logs.

(** ** TrecParser *)

Module TrecFacts.
Import TrecParser.

Lemma trec_fns_Misc : introspect cls !! "Misc" = Some onMisc.
Proof. reflexivity. Qed.

Lemma trec_fns_GotDocId : introspect cls !! "GotDocId" = Some onGotDocId.
Proof. reflexivity. Qed.

Lemma trec_fns_Text : introspect cls !! "Text" = Some onText.
Proof. reflexivity. Qed.

(** One iteration in a known state is the state's function on the line. *)
Lemma body_dispatch (line : string) (fr : frame TrecParser) fn :
  introspect cls !! f_state fr = Some fn →
  loop_body (introspect cls) line fr =
    let '(newstate, self') := fn line (f_self fr) in
    let trace' := f_trace fr ++ [EvHandler (f_state fr) line] in
    match newstate with
    | PyFalse => (Break, mkFrame (f_state fr) (Some line) self' trace')
    | PyNone => (Normal, mkFrame (f_state fr) (Some line) self' trace')
    | PyStr s => (Normal, mkFrame s (Some line) self' trace')
    end.
Proof. intros Hfn. unfold loop_body. by rewrite Hfn. Qed.

Lemma state_fn (fr : frame TrecParser) :
  is_state (f_state fr) →
  (f_state fr = "Misc" ∧ introspect cls !! f_state fr = Some onMisc) ∨
  (f_state fr = "GotDocId" ∧ introspect cls !! f_state fr = Some onGotDocId) ∨
  (f_state fr = "Text" ∧ introspect cls !! f_state fr = Some onText).
Proof.
  intros [Hs|[Hs|Hs]]; rewrite Hs.
  - left. split; [done|apply trec_fns_Misc].
  - right; left. split; [done|apply trec_fns_GotDocId].
  - right; right. split; [done|apply trec_fns_Text].
Qed.

(** One iteration never raises, keeps the callback, and breaks only
    right after the one invocation that asked to stop. *)
Lemma body_stop cb line (fr fr' : frame TrecParser) c :
  is_state (f_state fr) →
  callback (f_self fr) = cb →
  all_go cb (calls (f_self fr)) →
  loop_body (introspect cls) line fr = (c, fr') →
  callback (f_self fr') = cb ∧
  match c with
  | Normal => is_state (f_state fr') ∧ all_go cb (calls (f_self fr'))
  | Break => halts_on_stop cb (calls (f_self fr'))
  | Throw _ => False
  end.
Proof.
  intros Hst Hcb Hgo Hbody.
  destruct (state_fn fr Hst) as [[Hs Hfn]|[[Hs Hfn]|[Hs Hfn]]];
    rewrite (body_dispatch line fr _ Hfn) in Hbody.
  - unfold onMisc in Hbody. destruct (startswith line "<DOCNO>");
      injection Hbody as <- <-; simpl; (split; [done|split; [|done]]).
    + right; by left.
    + done.
  - unfold onGotDocId in Hbody. destruct (startswith line "<TEXT>");
      injection Hbody as <- <-; simpl; (split; [done|split; [|done]]).
    + right; by right.
    + done.
  - unfold onText, call_callback in Hbody.
    destruct (startswith line "</TEXT>").
    + rewrite Hcb in Hbody.
      destruct (cb (calls (f_self fr))
                  (docid (f_self fr), join (textlines (f_self fr)))) eqn:Hr;
        injection Hbody as <- <-; simpl; (split; [done|]).
      * by apply halts_on_stop_snoc.
      * split; [by left|]. apply all_go_snoc; [done|by rewrite Hr].
      * split; [by left|]. apply all_go_snoc; [done|by rewrite Hr].
    + injection Hbody as <- <-; simpl. done.
Qed.

Lemma loop_stop cb lines (fr fr' : frame TrecParser) c :
  is_state (f_state fr) →
  callback (f_self fr) = cb →
  all_go cb (calls (f_self fr)) →
  for_loop (introspect cls) lines fr = (c, fr') →
  callback (f_self fr') = cb ∧
  match c with
  | Normal => is_state (f_state fr') ∧ all_go cb (calls (f_self fr'))
  | Break => halts_on_stop cb (calls (f_self fr'))
  | Throw _ => False
  end.
Proof.
  revert fr. induction lines as [|l lines IH]; intros fr Hst Hcb Hgo.
  { by intros [= <- <-]. }
  rewrite for_loop_cons.
  destruct (loop_body (introspect cls) l fr) as [c1 fr1] eqn:Hbody.
  pose proof (body_stop cb l fr fr1 c1 Hst Hcb Hgo Hbody) as [Hcb1 H1].
  destruct c1 as [| |e].
  - destruct H1 as [Hst1 Hgo1]. by apply IH.
  - by intros [= <- <-].
  - done.
Qed.

(** The inherited [onFinish] does nothing, so what [parse] returns is
    the instance as the loop left it. *)
Lemma run_self cb fin :
  (run cb fin).1.2
  = f_self (for_loop (introspect cls) fin (initial_frame cls (init cb))).2.
Proof.
  unfold run, parse.
  destruct (for_loop (introspect cls) fin (initial_frame cls (init cb)))
    as [[| |e] fr]; simpl; [| |done];
    unfold finish; by destruct (f_line fr).
Qed.

(** The TREC half of C1: once the callback has returned [False], it is
    not invoked again. *)
Lemma trec_stop_halts cb fin : halts_on_stop cb (calls (run cb fin).1.2).
Proof.
  rewrite run_self.
  destruct (for_loop (introspect cls) fin (initial_frame cls (init cb)))
    as [c fr] eqn:Hloop.
  assert (is_state (f_state (initial_frame cls (init cb)))) as Hst by (by left).
  destruct (loop_stop cb fin _ fr c Hst eq_refl (all_go_nil cb) Hloop)
    as [_ Hc].
  destruct c as [| |e]; simpl; [|done|done].
  apply all_go_halts, Hc.
Qed.

(** Where the loop stands after a source it has exhausted. *)
Lemma loop_shape cb fin (fr : frame TrecParser) :
  for_loop (introspect cls) fin (initial_frame cls (init cb)) = (Normal, fr) →
  is_state (f_state fr) ∧
  (f_state fr = "GotDocId" → textlines (f_self fr) = []) ∧
  (f_state fr = "Text" → text_left_open cb fin fr).
Proof.
  revert fr. induction fin as [|l fin IH] using rev_ind; intros fr Hloop.
  { injection Hloop as <-. split_and!; [by left|done|done]. }
  apply for_loop_app_normal in Hloop as (fr1 & Hpre & Hlast).
  destruct (IH fr1 Hpre) as (Hst & Hgot & Htext).
  rewrite for_loop_cons in Hlast.
  destruct (loop_body (introspect cls) l fr1) as [c fr2] eqn:Hbody.
  destruct (state_fn fr1 Hst) as [[Hs Hfn]|[[Hs Hfn]|[Hs Hfn]]];
    rewrite (body_dispatch l fr1 _ Hfn) in Hbody.
  - unfold onMisc in Hbody. destruct (startswith l "<DOCNO>");
      injection Hbody as <- <-; injection Hlast as <-; simpl.
    + split_and!; [right; by left|done|done].
    + rewrite Hs. split_and!; [by left|done|done].
  - unfold onGotDocId in Hbody. destruct (startswith l "<TEXT>") eqn:Hopen;
      injection Hbody as <- <-; injection Hlast as <-; simpl.
    + split_and!; [right; by right|done|]. intros _.
      exists fin, l, [], fr1. simpl. split_and!; auto.
    + rewrite Hs. split_and!; [right; by left|auto|done].
  - unfold onText, call_callback in Hbody.
    destruct (startswith l "</TEXT>") eqn:Hclose.
    + destruct (is_False _); injection Hbody as <- <-; [done|].
      injection Hlast as <-; simpl. split_and!; [by left|done|done].
    + injection Hbody as <- <-; injection Hlast as <-; simpl.
      rewrite Hs. split_and!; [right; by right|done|]. intros _.
      destruct (Htext Hs)
        as (pre & opening & body & fr_pre & -> & Hp & Hg & Ho & Hb & Ht & Hd & Hc).
      exists pre, opening, (body ++ [l]), fr_pre. simpl.
      split_and!; auto.
      * by rewrite <-app_assoc.
      * apply Forall_app. split; [done|]. by apply Forall_singleton.
      * by rewrite Ht.
Qed.

(** C10: when the source runs out inside a TEXT section, [parse]
    returns without invoking the callback on the open document: the
    inherited [onFinish] leaves the instance as the loop left it, with
    the text lines still buffered and the log of invocations as it was
    when the document started. *)
Theorem unclosed_text_dropped cb fin (fr : frame TrecParser)
    (Hloop : for_loop (introspect cls) fin (initial_frame cls (init cb))
             = (Normal, fr))
    (Htext : f_state fr = "Text") :
  onFinish cls = base_onFinish ∧
  (∃ l, last fin = Some l ∧
        run cb fin = (Return (), f_self fr, f_trace fr ++ [EvFinish l])) ∧
  text_left_open cb fin fr.
Proof.
  destruct (loop_shape cb fin fr Hloop) as (_ & _ & Hopen).
  specialize (Hopen Htext). split_and!; [done| |done].
  destruct Hopen as (pre & opening & body & fr_pre & Hfin & _).
  destruct (last fin) as [l|] eqn:Hlast.
  - exists l. split; [done|]. unfold run, parse. rewrite Hloop. unfold finish.
    by rewrite (for_loop_normal_line _ _ _ _ Hloop), Hlast.
  - apply last_None in Hlast. subst fin. by destruct pre.
Qed.

Lemma unclosed_text_dropped_witness :
  let fr := (for_loop (introspect cls) trec_truncated
               (initial_frame cls (init cb_go))).2 in
  for_loop (introspect cls) trec_truncated (initial_frame cls (init cb_go))
    = (Normal, fr) ∧
  f_state fr = "Text" ∧
  onFinish cls = base_onFinish ∧
  (∃ l, last trec_truncated = Some l ∧
        run cb_go trec_truncated
        = (Return (), f_self fr, f_trace fr ++ [EvFinish l])) ∧
  text_left_open cb_go trec_truncated fr.
Proof.
  intros fr.
  assert (for_loop (introspect cls) trec_truncated
            (initial_frame cls (init cb_go)) = (Normal, fr)) as Hloop
    by reflexivity.
  assert (f_state fr = "Text") as Htext by reflexivity.
  split; [exact Hloop|]. split; [exact Htext|].
  exact (unclosed_text_dropped cb_go trec_truncated fr Hloop Htext).
Defined.

(** The scenario of the documentation: one document, one invocation. *)
Example trec_scenario :
  calls (run cb_go (trec_first_text ++ [trec_close])).1.2
  = [(Some "D1", "hello" +:+ nl +:+ "world" +:+ nl)].
Proof. reflexivity. Qed.

(** C2 as stated fails: after the state function has returned [False],
    [onFinish] is still called. *)
Lemma stop_still_calls_onFinish :
  ¬ (∀ (m : machine TrecParser) pre l post self fr fn self',
       for_loop (introspect m) pre (initial_frame m self) = (Normal, fr) →
       introspect m !! f_state fr = Some fn →
       fn l (f_self fr) = (PyFalse, self') →
       ∀ x, EvFinish x ∉ (parse m (pre ++ l :: post) self).2).
Proof.
  intros Hclaim.
  pose (fr := (for_loop (introspect cls) trec_first_text
                 (initial_frame cls (init cb_stop))).2).
  apply (Hclaim cls trec_first_text trec_close trec_second_doc (init cb_stop)
           fr onText (onText trec_close (f_self fr)).2
           eq_refl eq_refl eq_refl trec_close).
  apply list_elem_of_lookup. by exists 5%nat.
Qed.

Lemma stop_then_finish_witness :
  let fr := (for_loop (introspect cls) trec_first_text
               (initial_frame cls (init cb_stop))).2 in
  let self' := (onText trec_close (f_self fr)).2 in
  for_loop (introspect cls) trec_first_text (initial_frame cls (init cb_stop))
    = (Normal, fr) ∧
  introspect cls !! f_state fr = Some onText ∧
  onText trec_close (f_self fr) = (PyFalse, self') ∧
  parse cls (trec_first_text ++ trec_close :: trec_second_doc) (init cb_stop)
  = (Return (), (onFinish cls trec_close self').2,
     f_trace fr ++ [EvHandler (f_state fr) trec_close; EvFinish trec_close]) ∧
  event_line <$>
    (parse cls (trec_first_text ++ trec_close :: trec_second_doc)
       (init cb_stop)).2
  = trec_first_text ++ [trec_close; trec_close].
Proof.
  intros fr self'.
  assert (for_loop (introspect cls) trec_first_text
            (initial_frame cls (init cb_stop)) = (Normal, fr)) as Hpre
    by reflexivity.
  assert (introspect cls !! f_state fr = Some onText) as Hfn by reflexivity.
  assert (onText trec_close (f_self fr) = (PyFalse, self')) as Hstop
    by reflexivity.
  split; [exact Hpre|]. split; [exact Hfn|]. split; [exact Hstop|].
  exact (stop_then_finish cls trec_first_text trec_close trec_second_doc
           (init cb_stop) fr onText self' Hpre Hfn Hstop).
Defined.

End TrecFacts.

(** ** SMARTParser *)

Module SMARTFacts.
Import SMARTParser.

Lemma smart_fns_GotDocId : introspect cls !! "GotDocId" = Some onGotDocId.
Proof. reflexivity. Qed.

Lemma prefix_cons (c a : ascii) (p s : string) :
  String.prefix (String c p) (String a s)
  = if Ascii.ascii_dec c a then String.prefix p s else false.
Proof. reflexivity. Qed.

Lemma startswith_dotI_not_dotC (l : string) :
  startswith l ".I" = true → startswith l ".C" = false.
Proof.
  unfold startswith. destruct l as [|a [|b r]]; [done| |].
  - rewrite !prefix_cons. by destruct (Ascii.ascii_dec "." a).
  - rewrite !prefix_cons. destruct (Ascii.ascii_dec "." a); [|done].
    destruct (Ascii.ascii_dec "I" b) as [<-|]; [|done].
    intros _. by destruct (Ascii.ascii_dec "C" "I").
Qed.

Lemma onGotDocId_ignores (l : string) (self : SMARTParser) :
  startswith l ".C" = false → onGotDocId l self = (PyNone, self).
Proof. intros Hl. unfold onGotDocId. by rewrite Hl. Qed.

(** C9: in state GotDocId every line that does not start with [.C],
    a line starting with [.I] included, leaves the instance as it is
    and the state at GotDocId. *)
Theorem gotdocid_ignores (lines : list string) (self : SMARTParser)
    (line0 : option string) (trace : list event)
    (Hlines : Forall (λ l, startswith l ".C" = false) lines) :
  for_loop (introspect cls) lines (mkFrame "GotDocId" line0 self trace)
  = (Normal,
     mkFrame "GotDocId" (from_option Some line0 (last lines)) self
       (trace ++ (EvHandler "GotDocId" <$> lines))) ∧
  Forall (λ l, onGotDocId l self = (PyNone, self)) lines ∧
  (∀ l, startswith l ".I" = true → startswith l ".C" = false).
Proof.
  split_and!.
  - revert line0 trace.
    induction Hlines as [|l lines Hl _ IH]; intros line0 trace.
    { by rewrite app_nil_r. }
    rewrite for_loop_cons. unfold loop_body. simpl f_state.
    rewrite smart_fns_GotDocId. simpl f_self.
    rewrite (onGotDocId_ignores l self Hl). simpl f_trace.
    rewrite IH, last_cons. simpl. rewrite <-app_assoc. simpl.
    by destruct (last lines).
  - eapply Forall_impl; [exact Hlines|]. intros l Hl.
    by apply onGotDocId_ignores.
  - apply startswith_dotI_not_dotC.
Qed.

Lemma gotdocid_ignores_witness :
  Forall (λ l, startswith l ".C" = false) smart_no_dotC ∧
  for_loop (introspect cls) smart_no_dotC
    (mkFrame "GotDocId" (Some (".I 1" +:+ nl)) smart_got_id [])
  = (Normal,
     mkFrame "GotDocId"
       (from_option Some (Some (".I 1" +:+ nl)) (last smart_no_dotC))
       smart_got_id
       ([] ++ (EvHandler "GotDocId" <$> smart_no_dotC))) ∧
  Forall (λ l, onGotDocId l smart_got_id = (PyNone, smart_got_id))
    smart_no_dotC ∧
  (∀ l, startswith l ".I" = true → startswith l ".C" = false).
Proof.
  assert (Forall (λ l, startswith l ".C" = false) smart_no_dotC) as Hlines
    by (repeat constructor).
  split; [exact Hlines|].
  exact (gotdocid_ignores smart_no_dotC smart_got_id
           (Some (".I 1" +:+ nl)) [] Hlines).
Defined.

(** C1 at its failing input: the SMART callback answers [False] to the
    first record and is invoked again on the second. *)
Theorem smart_ignores_stop :
  (run cb_stop None smart_two_docs).1.1 = Return () ∧
  calls (run cb_stop None smart_two_docs).1.2
  = [(Some "1", Some ["cat1"; "cat2"], "hello world" +:+ nl);
     (Some "2", Some ["cat3"], "again" +:+ nl)] ∧
  ¬ halts_on_stop cb_stop (calls (run cb_stop None smart_two_docs).1.2).
Proof.
  split_and!; [reflexivity|reflexivity|].
  intros Hhalts.
  specialize (Hhalts 0%nat (Some "1", Some ["cat1"; "cat2"], "hello world" +:+ nl)
                eq_refl eq_refl).
  vm_compute in Hhalts. discriminate Hhalts.
Qed.

(** The scenario of the documentation, with only section [W] allowed. *)
Example smart_scenario :
  calls (run cb_go (Some ["W"])
           [".I 1" +:+ nl; ".C" +:+ nl; "cat1 1 cat2 1" +:+ nl; ".W" +:+ nl;
            "hello world" +:+ nl; ".T" +:+ nl; "a title" +:+ nl;
            ".I 2" +:+ nl]).1.2
  = [(Some "1", Some ["cat1"; "cat2"], "hello world" +:+ nl)].
Proof. reflexivity. Qed.

End SMARTFacts.

End IOFacts.

(** * Further properties of AtomFactory *)

Module AtomFactoryMore.
Import Py AtomFactory AtomFactoryFacts.

Section More.
Context {K : Type} `{Countable K} `{!Formattable K}.
Implicit Types (f g : AtomFactory K) (o obj : K) (a : Z).

(** Under the invariant the dictionary is read off the list. *)
Lemma inv_lookup_iff f o a :
  bimap_inv f →
  obj_to_atom f !! o = Some a ↔
  1 ≤ a ∧ atom_to_obj f !! Z.to_nat (a - 1) = Some o.
Proof.
  intros Hinv. split.
  - intros Ho. split; [by apply (inv_contiguous f Hinv o a)|].
    by apply inv_bwd_fwd.
  - intros [Ha Hl]. pose proof (lookup_lt_Some _ _ _ Hl) as Hlt.
    destruct (inv_fwd_bwd f Hinv a) as (o' & Hl' & Ho'); [unfold len; lia|].
    by simplify_eq.
Qed.

Lemma inv_determined f g :
  bimap_inv f → bimap_inv g → atom_to_obj f = atom_to_obj g →
  obj_to_atom f = obj_to_atom g.
Proof.
  intros Hf Hg Hl. apply map_eq. intros o. apply option_eq. intros a.
  by rewrite (inv_lookup_iff f o a Hf), (inv_lookup_iff g o a Hg), Hl.
Qed.

Lemma getitem_returns_lookup f o a f' :
  getitem o f = (Return a, f') → obj_to_atom f' !! o = Some a.
Proof.
  unfold getitem. destruct (obj_to_atom f !! o) as [a0|] eqn:Ho.
  - by intros [= <- <-].
  - destruct (locked f); [done|]. intros [= <- <-]. simpl.
    by rewrite lookup_insert_eq.
Qed.

Lemma get_object_lookup f a o :
  1 ≤ a → atom_to_obj f !! Z.to_nat (a - 1) = Some o →
  get_object a f = Return o.
Proof.
  intros Ha Hl. pose proof (lookup_lt_Some _ _ _ Hl) as Hlt.
  destruct (list_index_in_range (atom_to_obj f) (a - 1)) as (x & Hx & Hr); [lia|].
  unfold get_object. rewrite Hr. by simplify_eq.
Qed.

Lemma contains_lookup f o :
  contains o f = true ↔ is_Some (obj_to_atom f !! o).
Proof. unfold contains. by rewrite bool_decide_eq_true. Qed.

(** X1: what [__getitem__] returns for an object, [get_object] maps
    back to that object. *)
Theorem getitem_get_object f o a f'
    (Hinv : bimap_inv f) (Hget : getitem o f = (Return a, f')) :
  get_object a f' = Return o.
Proof.
  assert (bimap_inv f') as Hinv'.
  { replace f' with (getitem o f).2 by (by rewrite Hget). by apply inv_getitem. }
  apply getitem_returns_lookup in Hget.
  apply (inv_lookup_iff f' o a Hinv') in Hget as [Ha Hl].
  by apply get_object_lookup.
Qed.

(** X2: looking an object up again returns the same atom and leaves the
    factory as the first lookup left it. *)
Theorem getitem_again f o a f' (Hget : getitem o f = (Return a, f')) :
  getitem o f' = (Return a, f').
Proof.
  apply getitem_returns_lookup in Hget.
  by apply getitem_present.
Qed.

(** X3: distinct objects looked up in a new factory get the atoms
    1, 2, ... in the order of the lookups. *)
Theorem insert_all_first_seen (objs : list K) nm (Hnd : NoDup objs) :
  atom_to_obj (insert_all objs (init nm)) = objs ∧
  ∀ (i : nat) o, objs !! i = Some o →
    obj_to_atom (insert_all objs (init nm)) !! o = Some (Z.of_nat i + 1).
Proof.
  assert (atom_to_obj (insert_all objs (init nm)) = objs) as Hl.
  { by rewrite insert_all_fresh; [|apply inv_init|done|]. }
  split; [done|]. intros i o Hi.
  apply inv_lookup_iff; [apply insert_all_inv, inv_init|].
  split; [lia|]. rewrite Hl.
  by replace (Z.to_nat (Z.of_nat i + 1 - 1)) with i by lia.
Qed.

(** X25: in every factory obtained from a new one by any sequence of
    method calls, [obj_to_atom] and [get_object] are inverse of each
    other on the atoms [1 .. size()]. *)
Theorem reachable_bijection (ops : list (@op K)) nm o a :
  obj_to_atom (exec_all ops (init nm)) !! o = Some a ↔
  1 ≤ a ≤ len (exec_all ops (init nm))
  ∧ get_object a (exec_all ops (init nm)) = Return o.
Proof.
  pose proof (exec_all_inv ops nm) as Hinv. split.
  - intros Ho. split; [by apply (inv_contiguous _ Hinv o a)|].
    apply (inv_lookup_iff _ o a Hinv) in Ho as [Ha Hl].
    by apply get_object_lookup.
  - intros [Ha Hg].
    destruct (inv_fwd_bwd _ Hinv a Ha) as (o' & Hl & Ho').
    rewrite (get_object_lookup _ a o') in Hg by (lia || done).
    by injection Hg as <-.
Qed.

(** *** [remove] *)

Lemma remove_result (objects : list K) f :
  (remove objects f).1 = Return (remove_spec objects f).
Proof. unfold remove, remove_spec. simpl. by rewrite remove_loop_spec. Qed.

Lemma remove_spec_contains (objects : list K) f o :
  bimap_inv f →
  contains o (remove_spec objects f)
  = contains o f && bool_decide (o ∉ objects).
Proof.
  intros Hinv.
  assert (bimap_inv (remove_spec objects f)) as Hinv'
    by apply insert_all_inv, inv_init.
  apply eq_true_iff_eq.
  rewrite andb_true_iff, !contains_lookup, bool_decide_eq_true.
  rewrite (inv_elem_of _ o Hinv'), (inv_elem_of f o Hinv).
  rewrite (remove_spec_objects objects f Hinv).
  rewrite list_elem_of_filter, elem_of_list_to_set. tauto.
Qed.

Lemma remove_spec_compose (S1 S2 : list K) f :
  bimap_inv f →
  remove_spec S2 (remove_spec S1 f) = remove_spec (S1 ++ S2) f.
Proof.
  intros Hinv. unfold remove_spec at 1 3.
  rewrite (remove_spec_objects S1 f Hinv).
  unfold remove_spec at 1. rewrite insert_all_name. simpl.
  f_equal. rewrite list_filter_filter. apply list_filter_iff.
  intros o. rewrite list_to_set_app_L, not_elem_of_union. tauto.
Qed.

Lemma filter_all {A} (P : A → Prop) `{∀ x, Decision (P x)} (l : list A) :
  (∀ x, P x) → filter P l = l.
Proof.
  intros HP. induction l as [|x l IH]; [done|].
  by rewrite filter_cons_True, IH.
Qed.

(** X4: on a factory satisfying the invariant, [remove] keeps exactly
    the objects outside [objects], in their order. *)
Theorem remove_keeps_others (objects : list K) f g
    (Hinv : bimap_inv f) (Hrem : (remove objects f).1 = Return g) :
  atom_to_obj g
  = filter (λ obj, obj ∉ (list_to_set objects : gset K)) (atom_to_obj f) ∧
  ∀ o, contains o g = contains o f && bool_decide (o ∉ objects).
Proof.
  rewrite remove_result in Hrem. injection Hrem as <-.
  split; [by apply remove_spec_objects|].
  intros o. by apply remove_spec_contains.
Qed.

(** X5: removing in two steps is removing the two collections at once. *)
Theorem remove_remove (S1 S2 : list K) f g
    (Hinv : bimap_inv f) (Hrem : (remove S1 f).1 = Return g) :
  (remove S2 g).1 = (remove (S1 ++ S2) f).1.
Proof.
  rewrite remove_result in Hrem. injection Hrem as <-.
  by rewrite !remove_result, remove_spec_compose.
Qed.

(** X6: [remove] of nothing copies the bimap into an unlocked factory,
    whatever the lock of the receiver. *)
Theorem remove_nothing_unlocks f g
    (Hinv : bimap_inv f) (Hrem : (remove [] f).1 = Return g) :
  atom_to_obj g = atom_to_obj f ∧ obj_to_atom g = obj_to_atom f ∧
  name g = name f ∧ locked g = false.
Proof.
  rewrite remove_result in Hrem. injection Hrem as <-.
  assert (atom_to_obj (remove_spec [] f) = atom_to_obj f) as Hsame.
  { rewrite (remove_spec_objects [] f Hinv). apply filter_all.
    intros o. apply not_elem_of_empty. }
  split_and!; [done| | |].
  - apply inv_determined; [apply insert_all_inv, inv_init|done|done].
  - unfold remove_spec. by rewrite insert_all_name.
  - unfold remove_spec. by apply insert_all_unlocked.
Qed.

(** Positions in a duplicate-free list and in what a filter keeps. *)
Lemma filter_index_le {A} (P : A → Prop) `{∀ x, Decision (P x)}
    (l : list A) (i j : nat) (x : A) :
  NoDup l → l !! i = Some x → filter P l !! j = Some x → (j ≤ i)%nat.
Proof.
  revert i j. induction l as [|y l IH]; intros i j Hnd Hi Hj; [done|].
  apply NoDup_cons in Hnd as [Hy Hnd].
  destruct i as [|i].
  { injection Hi as ->. destruct (decide (P x)) as [HP|HP].
    - rewrite filter_cons_True in Hj by done. destruct j as [|j]; [done|].
      simpl in Hj.
      apply list_elem_of_lookup_2, list_elem_of_filter in Hj as [_ Hin]. done.
    - rewrite filter_cons_False in Hj by done.
      apply list_elem_of_lookup_2, list_elem_of_filter in Hj as [_ Hin]. done. }
  simpl in Hi. destruct (decide (P y)) as [HP|HP].
  - rewrite filter_cons_True in Hj by done. destruct j as [|j]; [lia|].
    simpl in Hj. specialize (IH i j Hnd Hi Hj). lia.
  - rewrite filter_cons_False in Hj by done.
    specialize (IH i j Hnd Hi Hj). lia.
Qed.

Lemma filter_index_lt {A} (P : A → Prop) `{∀ x, Decision (P x)}
    (l : list A) (i1 i2 j1 j2 : nat) (x1 x2 : A) :
  NoDup l → l !! i1 = Some x1 → l !! i2 = Some x2 → (i1 < i2)%nat →
  filter P l !! j1 = Some x1 → filter P l !! j2 = Some x2 → (j1 < j2)%nat.
Proof.
  revert i1 i2 j1 j2.
  induction l as [|y l IH]; intros i1 i2 j1 j2 Hnd H1 H2 Hlt Hj1 Hj2; [done|].
  apply NoDup_cons in Hnd as [Hy Hnd].
  destruct i2 as [|i2]; [lia|]. simpl in H2.
  assert (x2 ≠ y) as Hx2.
  { intros ->. by apply list_elem_of_lookup_2 in H2. }
  destruct (decide (P y)) as [HP|HP].
  - rewrite filter_cons_True in Hj1, Hj2 by done.
    destruct j2 as [|j2]; [by injection Hj2 as ->|]. simpl in Hj2.
    destruct j1 as [|j1]; [lia|]. simpl in Hj1.
    destruct i1 as [|i1].
    { injection H1 as ->.
      apply list_elem_of_lookup_2, list_elem_of_filter in Hj1 as [_ Hin]. done. }
    simpl in H1.
    assert (i1 < i2)%nat as Hlt' by lia.
    specialize (IH i1 i2 j1 j2 Hnd H1 H2 Hlt' Hj1 Hj2). lia.
  - rewrite filter_cons_False in Hj1, Hj2 by done.
    destruct i1 as [|i1].
    { injection H1 as ->.
      apply list_elem_of_lookup_2, list_elem_of_filter in Hj1 as [HPx _]. done. }
    simpl in H1.
    assert (i1 < i2)%nat as Hlt' by lia.
    exact (IH i1 i2 j1 j2 Hnd H1 H2 Hlt' Hj1 Hj2).
Qed.

(** X7: [remove] renumbers without reordering: a retained object's new
    atom is at most its old one, and two retained objects keep their
    relative order. *)
Theorem remove_keeps_order (objects : list K) f g o1 o2 a1 a2 b1 b2
    (Hinv : bimap_inv f) (Hrem : (remove objects f).1 = Return g)
    (Ha1 : obj_to_atom f !! o1 = Some a1) (Ha2 : obj_to_atom f !! o2 = Some a2)
    (Hb1 : obj_to_atom g !! o1 = Some b1) (Hb2 : obj_to_atom g !! o2 = Some b2) :
  1 ≤ b1 ≤ a1 ∧ (a1 < a2 → b1 < b2).
Proof.
  rewrite remove_result in Hrem. injection Hrem as <-.
  assert (bimap_inv (remove_spec objects f)) as Hinv'
    by apply insert_all_inv, inv_init.
  pose proof (inv_NoDup f Hinv) as Hnd.
  apply (inv_lookup_iff f o1 a1 Hinv) in Ha1 as [Hp1 Hl1].
  apply (inv_lookup_iff f o2 a2 Hinv) in Ha2 as [Hp2 Hl2].
  apply (inv_lookup_iff _ o1 b1 Hinv') in Hb1 as [Hq1 Hk1].
  apply (inv_lookup_iff _ o2 b2 Hinv') in Hb2 as [Hq2 Hk2].
  rewrite (remove_spec_objects objects f Hinv) in Hk1, Hk2.
  split.
  - pose proof (filter_index_le _ _ _ _ _ Hnd Hl1 Hk1). lia.
  - intros Hlt.
    assert (Z.to_nat (a1 - 1) < Z.to_nat (a2 - 1))%nat as Hlt' by lia.
    pose proof (filter_index_lt _ _ _ _ _ _ _ _ Hnd Hl1 Hl2 Hlt' Hk1 Hk2). lia.
Qed.

(** *** [convertAtom] *)

(** X8: when [convertAtom] returns, the atom it returns names in
    [newAF] the object [atom] names in [oldAF]. *)
Theorem convertAtom_same_object (oldAF newAF : AtomFactory K) atom a'
    (Hinv : bimap_inv newAF)
    (Hconv : (convertAtom oldAF newAF atom).1 = Return a') :
  ∃ o, get_object atom oldAF = Return o ∧ get_object a' newAF = Return o.
Proof.
  unfold convertAtom in Hconv.
  destruct (get_object atom oldAF) as [o|e]; [|done].
  exists o. split; [done|]. unfold contains in Hconv.
  destruct (obj_to_atom newAF !! o) as [b|] eqn:Ho.
  - rewrite bool_decide_eq_true_2 in Hconv by eauto. simpl in Hconv.
    rewrite (getitem_present newAF o b Ho) in Hconv. simpl in Hconv.
    injection Hconv as <-.
    apply (inv_lookup_iff newAF o b Hinv) in Ho as [Hb Hl].
    by apply get_object_lookup.
  - rewrite bool_decide_eq_false_2 in Hconv by (by intros [? ?]).
    simpl in Hconv. by destruct (formats o).
Qed.

Lemma convertAtom_present (oldAF newAF : AtomFactory K) atom o b :
  get_object atom oldAF = Return o → obj_to_atom newAF !! o = Some b →
  convertAtom oldAF newAF atom = (Return b, (oldAF, newAF)).
Proof.
  intros Hg Ho. unfold convertAtom, contains. rewrite Hg.
  rewrite bool_decide_eq_true_2 by eauto. simpl.
  by rewrite (getitem_present newAF o b Ho).
Qed.

Lemma convertAtom_absent (oldAF newAF : AtomFactory K) atom o :
  get_object atom oldAF = Return o → obj_to_atom newAF !! o = None →
  convertAtom oldAF newAF atom
  = (Raise (if formats o then IllegalOperation else TypeError),
     (oldAF, newAF)).
Proof.
  intros Hg Ho. unfold convertAtom, contains. rewrite Hg.
  rewrite bool_decide_eq_false_2 by (rewrite Ho; by intros [? ?]). simpl.
  by destruct (formats o).
Qed.

Lemma get_object_valid f a :
  bimap_inv f → 1 ≤ a ≤ len f →
  ∃ o, get_object a f = Return o ∧ obj_to_atom f !! o = Some a.
Proof.
  intros Hinv Ha.
  destruct (inv_fwd_bwd f Hinv a Ha) as (o & Hl & Ho).
  exists o. split; [|done]. apply get_object_lookup; [lia|done].
Qed.

(** X9: converting a valid atom of a factory into that same factory
    gives the atom back. *)
Theorem convertAtom_same_factory f a
    (Hinv : bimap_inv f) (Ha : 1 ≤ a ≤ len f) :
  convertAtom f f a = (Return a, (f, f)).
Proof.
  destruct (get_object_valid f a Hinv Ha) as (o & Hg & Ho).
  by apply (convertAtom_present f f a o a).
Qed.

Lemma convertAtom_remove_spec (objects : list K) f a :
  bimap_inv f → 1 ≤ a ≤ len f →
  ∃ o, get_object a f = Return o ∧
    if bool_decide (o ∈ objects)
    then convertAtom f (remove_spec objects f) a
         = (Raise (if formats o then IllegalOperation else TypeError),
            (f, remove_spec objects f))
    else ∃ b, convertAtom f (remove_spec objects f) a
              = (Return b, (f, remove_spec objects f))
              ∧ get_object b (remove_spec objects f) = Return o.
Proof.
  intros Hinv Ha.
  destruct (get_object_valid f a Hinv Ha) as (o & Hg & Ho).
  exists o. split; [done|].
  assert (bimap_inv (remove_spec objects f)) as Hinv'
    by apply insert_all_inv, inv_init.
  pose proof (remove_spec_contains objects f o Hinv) as Hc.
  assert (contains o f = true) as Hcf by (apply contains_lookup; eauto).
  rewrite Hcf in Hc. simpl in Hc.
  destruct (decide (o ∈ objects)) as [Hin|Hin].
  - rewrite bool_decide_eq_true_2 by done.
    rewrite bool_decide_eq_false_2 in Hc by tauto.
    apply convertAtom_absent; [done|].
    apply eq_None_not_Some. rewrite <-contains_lookup. by rewrite Hc.
  - rewrite bool_decide_eq_false_2 by done.
    rewrite bool_decide_eq_true_2 in Hc by done.
    apply contains_lookup in Hc as [b Hb]. exists b.
    split; [by apply convertAtom_present with o|].
    apply (inv_lookup_iff _ o b Hinv') in Hb as [Hb1 Hl].
    by apply get_object_lookup.
Qed.

(** X10: converting a valid atom into the factory [remove] returned
    fails exactly when its object was removed, with [IllegalOperation]
    when the object formats into the message and with [TypeError] when
    it does not, and otherwise returns the atom of that same object. *)
Theorem convertAtom_after_remove (objects : list K) f g a
    (Hinv : bimap_inv f) (Ha : 1 ≤ a ≤ len f)
    (Hrem : (remove objects f).1 = Return g) :
  ∃ o, get_object a f = Return o ∧
    if bool_decide (o ∈ objects)
    then convertAtom f g a
         = (Raise (if formats o then IllegalOperation else TypeError), (f, g))
    else ∃ b, convertAtom f g a = (Return b, (f, g))
              ∧ get_object b g = Return o.
Proof.
  rewrite remove_result in Hrem. injection Hrem as <-.
  by apply convertAtom_remove_spec.
Qed.

(** *** [convertAtomVector] *)

Section Vector.
Context {V : Type}.
Implicit Types (items acc : list (Z * V)).

Lemma get_object_in_range f a :
  - len f < a ≤ len f → ∃ o, get_object a f = Return o.
Proof.
  intros Ha. unfold get_object, len in *.
  destruct (decide (1 ≤ a)) as [Hpos|Hneg].
  - destruct (list_index_in_range (atom_to_obj f) (a - 1)) as (o & _ & Hr);
      [lia|eauto].
  - rewrite list_index_negative by lia.
    destruct (list_index_in_range (atom_to_obj f)
                (a - 1 + Z.of_nat (length (atom_to_obj f)))) as (o & _ & Hr);
      [lia|eauto].
Qed.

Lemma get_object_out_of_range f a :
  a > len f ∨ a ≤ - len f → get_object a f = Raise IndexError.
Proof.
  unfold get_object, len. intros [Ha|Ha].
  - apply list_index_above. lia.
  - apply list_index_below. lia.
Qed.

Lemma get_object_elem_of f a o : get_object a f = Return o → o ∈ atom_to_obj f.
Proof.
  unfold get_object, list_index.
  destruct (_ || _); [done|].
  destruct (atom_to_obj f !! _) as [x|] eqn:Hl; [|done].
  intros [= <-]. by eapply list_elem_of_lookup_2.
Qed.

Lemma get_object_raises f a e : get_object a f = Raise e → e = IndexError.
Proof.
  unfold get_object, list_index.
  destruct (_ || _); [by intros [= <-]|].
  destruct (atom_to_obj f !! _); [done|by intros [= <-]].
Qed.

(** What one item makes of the loop: it is assigned, skipped, or ends
    the loop with the exception of [convertAtom]. *)
Lemma convertAtomVector_loop_cons (oldAF newAF : AtomFactory K) a (v : V)
    items acc :
  convertAtomVector_loop oldAF newAF ((a, v) :: items) acc
  = match get_object a oldAF with
    | Raise e => (Raise e, (oldAF, newAF))
    | Return o =>
        match obj_to_atom newAF !! o with
        | Some b =>
            convertAtomVector_loop oldAF newAF items (acc ++ [(b, v)])
        | None =>
            if formats o then convertAtomVector_loop oldAF newAF items acc
            else (Raise TypeError, (oldAF, newAF))
        end
    end.
Proof.
  simpl. destruct (get_object a oldAF) as [o|e] eqn:Hg.
  - destruct (obj_to_atom newAF !! o) as [b|] eqn:Ho.
    + by rewrite (convertAtom_present oldAF newAF a o b Hg Ho).
    + rewrite (convertAtom_absent oldAF newAF a o Hg Ho).
      by destruct (formats o).
  - unfold convertAtom. rewrite Hg.
    by rewrite (get_object_raises oldAF a e Hg).
Qed.

(** Items that are assigned or skipped. *)
Lemma convertAtomVector_loop_passes (oldAF newAF : AtomFactory K) items acc :
  Forall (λ item, ∃ o, get_object item.1 oldAF = Return o
                       ∧ (obj_to_atom newAF !! o = None → formats o = true))
    items →
  convertAtomVector_loop oldAF newAF items acc
  = (Return (acc ++ omap (converted_item oldAF newAF) items), (oldAF, newAF)).
Proof.
  intros Hall. revert acc.
  induction Hall as [|[a v] items (o & Hg & Hfmt) _ IH]; intros acc.
  { simpl. by rewrite app_nil_r. }
  simpl in Hg. rewrite convertAtomVector_loop_cons, Hg.
  cbn [omap list_omap]. unfold converted_item at 1. simpl. rewrite Hg.
  destruct (obj_to_atom newAF !! o) as [b|] eqn:Ho; simpl.
  - by rewrite IH, <-app_assoc.
  - rewrite (Hfmt eq_refl). by rewrite IH.
Qed.

Lemma passes_in_range (oldAF newAF : AtomFactory K) items :
  Forall (λ item, - len oldAF < item.1 ≤ len oldAF) items →
  (∀ o, o ∈ atom_to_obj oldAF → formats o = true) →
  Forall (λ item, ∃ o, get_object item.1 oldAF = Return o
                       ∧ (obj_to_atom newAF !! o = None → formats o = true))
    items.
Proof.
  intros Hall Hfmt. eapply Forall_impl; [exact Hall|].
  intros [a v] Ha. simpl in *.
  destruct (get_object_in_range oldAF a Ha) as (o & Hg).
  exists o. split; [done|]. intros _.
  by apply Hfmt, (get_object_elem_of oldAF a).
Qed.

Lemma passes_converted (oldAF newAF : AtomFactory K) items :
  Forall (λ item, is_Some (converted_item oldAF newAF item)) items →
  Forall (λ item, ∃ o, get_object item.1 oldAF = Return o
                       ∧ (obj_to_atom newAF !! o = None → formats o = true))
    items.
Proof.
  intros Hall. eapply Forall_impl; [exact Hall|].
  intros [a v] [x Hx]. unfold converted_item in Hx. simpl in *.
  destruct (get_object a oldAF) as [o|e]; [|done].
  exists o. split; [done|]. intros Hnone. by rewrite Hnone in Hx.
Qed.

(** The loop ends at the first item on which [convertAtom] raises
    something else than [IllegalOperation]. *)
Lemma convertAtomVector_loop_stops (oldAF newAF : AtomFactory K)
    (pre post : list (Z * V)) a (v : V) e acc :
  Forall (λ item, ∃ o, get_object item.1 oldAF = Return o
                       ∧ (obj_to_atom newAF !! o = None → formats o = true))
    pre →
  convertAtom oldAF newAF a = (Raise e, (oldAF, newAF)) →
  e ≠ IllegalOperation →
  convertAtomVector_loop oldAF newAF (pre ++ (a, v) :: post) acc
  = (Raise e, (oldAF, newAF)).
Proof.
  intros Hpre Hconv He. revert acc.
  induction Hpre as [|[a0 v0] pre (o & Hg & Hfmt) _ IH]; intros acc.
  - simpl. rewrite Hconv. by destruct e.
  - simpl in Hg. rewrite <-app_comm_cons, convertAtomVector_loop_cons, Hg.
    destruct (obj_to_atom newAF !! o) as [b|] eqn:Ho; [apply IH|].
    rewrite (Hfmt eq_refl). apply IH.
Qed.

(** X11: when every atom of the vector indexes [oldAF] and every
    object of [oldAF] formats into the message of [convertAtom],
    [convertAtomVector] returns: it keeps, in order, the items whose
    object is in [newAF], each under that object's atom there, drops
    the others, and changes neither factory. *)
Theorem convertAtomVector_in_range (oldAF newAF : AtomFactory K) items
    (Hall : Forall (λ item, - len oldAF < item.1 ≤ len oldAF) items)
    (Hfmt : ∀ o, o ∈ atom_to_obj oldAF → formats o = true) :
  convertAtomVector oldAF newAF items
  = (Return (omap (converted_item oldAF newAF) items), (oldAF, newAF)).
Proof.
  unfold convertAtomVector.
  rewrite convertAtomVector_loop_passes; [done|].
  by apply passes_in_range.
Qed.

(** X12: an atom outside [oldAF] is not skipped: the [IndexError] of
    [get_object] is not caught, and the whole conversion is lost.  The
    items before it index [oldAF], whose objects all format. *)
Theorem convertAtomVector_out_of_range (oldAF newAF : AtomFactory K)
    (pre post : list (Z * V)) (a : Z) (v : V)
    (Hpre : Forall (λ item, - len oldAF < item.1 ≤ len oldAF) pre)
    (Hfmt : ∀ o, o ∈ atom_to_obj oldAF → formats o = true)
    (Ha : a > len oldAF ∨ a ≤ - len oldAF) :
  convertAtomVector oldAF newAF (pre ++ (a, v) :: post)
  = (Raise IndexError, (oldAF, newAF)).
Proof.
  unfold convertAtomVector.
  apply convertAtomVector_loop_stops; [by apply passes_in_range| |done].
  unfold convertAtom. by rewrite (get_object_out_of_range oldAF a Ha).
Qed.

(** X13: converting a vector of valid atoms into the factory [remove]
    returned keeps every value on its object and drops exactly the
    items of removed objects, when the removed objects format into the
    message of [convertAtom]. *)
Theorem convertAtomVector_after_remove (objects : list K) f g items
    (Hinv : bimap_inv f) (Hrem : (remove objects f).1 = Return g)
    (Hall : Forall (λ item, 1 ≤ item.1 ≤ len f) items)
    (Hfmt : Forall (λ o, formats o = true) objects) :
  ∃ new_av,
    convertAtomVector f g items = (Return new_av, (f, g)) ∧
    named_items g new_av
    = filter (λ p, p.1 ∉ objects) (named_items f items).
Proof.
  rewrite remove_result in Hrem. injection Hrem as <-.
  rewrite Forall_forall in Hfmt.
  exists (omap (converted_item f (remove_spec objects f)) items). split.
  { unfold convertAtomVector. rewrite convertAtomVector_loop_passes; [done|].
    eapply Forall_impl; [exact Hall|]. intros [a v] Ha. simpl in *.
    destruct (convertAtom_remove_spec objects f a Hinv Ha) as (o & Hg & Hcase).
    exists o. split; [done|]. intros Hnone.
    destruct (decide (o ∈ objects)) as [Hin|Hin]; [by apply Hfmt|].
    rewrite bool_decide_eq_false_2 in Hcase by done.
    destruct Hcase as (b & Hconv & _).
    rewrite (convertAtom_absent _ _ a o Hg Hnone) in Hconv. done. }
  induction Hall as [|[a v] items Ha _ IH]; [done|]. simpl in Ha.
  destruct (convertAtom_remove_spec objects f a Hinv Ha) as (o & Hg & Hcase).
  unfold named_items in *. simpl. unfold converted_item at 1. simpl.
  rewrite Hg.
  destruct (decide (o ∈ objects)) as [Hin|Hin].
  - rewrite bool_decide_eq_true_2 in Hcase by done.
    rewrite filter_cons_False by (simpl; tauto).
    destruct (obj_to_atom (remove_spec objects f) !! o) as [b|] eqn:Ho.
    + rewrite (convertAtom_present _ _ a o b Hg Ho) in Hcase. done.
    + simpl. apply IH.
  - rewrite bool_decide_eq_false_2 in Hcase by done.
    destruct Hcase as (b & Hconv & Hgb).
    rewrite filter_cons_True by done.
    destruct (obj_to_atom (remove_spec objects f) !! o) as [b'|] eqn:Ho.
    + rewrite (convertAtom_present _ _ a o b' Hg Ho) in Hconv.
      injection Hconv as ->. simpl. rewrite Hgb. simpl. f_equal. exact IH.
    + rewrite (convertAtom_absent _ _ a o Hg Ho) in Hconv. done.
Qed.

(** X27: an item whose object is absent from [newAF] and does not
    format into the message of [convertAtom] (a tuple) is not skipped
    either: the [TypeError] of the formatting is not caught, and the
    whole conversion is lost. *)
Theorem convertAtomVector_unformattable (oldAF newAF : AtomFactory K)
    (pre post : list (Z * V)) (a : Z) (v : V) (o : K)
    (Hpre : Forall (λ item, is_Some (converted_item oldAF newAF item)) pre)
    (Hobj : get_object a oldAF = Return o)
    (Habsent : obj_to_atom newAF !! o = None)
    (Hfmt : formats o = false) :
  convertAtomVector oldAF newAF (pre ++ (a, v) :: post)
  = (Raise TypeError, (oldAF, newAF)).
Proof.
  unfold convertAtomVector.
  apply convertAtomVector_loop_stops; [by apply passes_converted| |done].
  by rewrite (convertAtom_absent oldAF newAF a o Hobj Habsent), Hfmt.
Qed.

End Vector.

End More.

(** *** [savetxt] *)






(** *** On the factories of the examples *)

Import Examples.

Lemma fruit3_inv : bimap_inv fruit3.
Proof. apply inv_getitem, fruit_inv. Qed.

Lemma getitem_get_object_witness :
  bimap_inv fruit ∧ getitem "pears" fruit = (Return 3, fruit3) ∧
  get_object 3 fruit3 = Return "pears".
Proof.
  assert (getitem "pears" fruit = (Return 3, fruit3)) as Hget by reflexivity.
  split; [exact fruit_inv|]. split; [exact Hget|].
  exact (getitem_get_object fruit "pears" 3 fruit3 fruit_inv Hget).
Defined.

Lemma getitem_again_witness :
  getitem "pears" fruit = (Return 3, fruit3) ∧
  getitem "pears" fruit3 = (Return 3, fruit3).
Proof.
  assert (getitem "pears" fruit = (Return 3, fruit3)) as Hget by reflexivity.
  split; [exact Hget|].
  exact (getitem_again fruit "pears" 3 fruit3 Hget).
Defined.

Lemma two_fruits_NoDup : NoDup ["apples"; "oranges"].
Proof. apply (bool_decide_unpack _). by vm_compute. Qed.

Lemma insert_all_first_seen_witness :
  NoDup ["apples"; "oranges"] ∧
  atom_to_obj (insert_all ["apples"; "oranges"] (init "tokens"))
  = ["apples"; "oranges"] ∧
  ∀ (i : nat) o, ["apples"; "oranges"] !! i = Some o →
    obj_to_atom (insert_all ["apples"; "oranges"] (init "tokens")) !! o
    = Some (Z.of_nat i + 1).
Proof.
  split; [exact two_fruits_NoDup|].
  exact (insert_all_first_seen ["apples"; "oranges"] "tokens" two_fruits_NoDup).
Defined.

Lemma remove_oranges : (remove ["oranges"] fruit3).1 = Return no_oranges.
Proof. apply remove_result. Qed.

Lemma remove_keeps_others_witness :
  bimap_inv fruit3 ∧ (remove ["oranges"] fruit3).1 = Return no_oranges ∧
  atom_to_obj no_oranges
  = filter (λ obj, obj ∉ (list_to_set ["oranges"] : gset string))
      (atom_to_obj fruit3) ∧
  ∀ o, contains o no_oranges
       = contains o fruit3 && bool_decide (o ∉ ["oranges"]).
Proof.
  split; [exact fruit3_inv|]. split; [exact remove_oranges|].
  exact (remove_keeps_others ["oranges"] fruit3 no_oranges fruit3_inv
           remove_oranges).
Defined.

Lemma remove_remove_witness :
  bimap_inv fruit3 ∧ (remove ["oranges"] fruit3).1 = Return no_oranges ∧
  (remove ["apples"] no_oranges).1
  = (remove (["oranges"] ++ ["apples"]) fruit3).1.
Proof.
  split; [exact fruit3_inv|]. split; [exact remove_oranges|].
  exact (remove_remove ["oranges"] ["apples"] fruit3 no_oranges fruit3_inv
           remove_oranges).
Defined.

Lemma remove_nothing_unlocks_witness :
  bimap_inv (lock fruit3) ∧
  (remove [] (lock fruit3)).1 = Return (remove_spec [] (lock fruit3)) ∧
  atom_to_obj (remove_spec [] (lock fruit3)) = atom_to_obj (lock fruit3) ∧
  obj_to_atom (remove_spec [] (lock fruit3)) = obj_to_atom (lock fruit3) ∧
  name (remove_spec [] (lock fruit3)) = name (lock fruit3) ∧
  locked (remove_spec [] (lock fruit3)) = false.
Proof.
  assert (bimap_inv (lock fruit3)) as Hinv
    by (destruct fruit3_inv; by split).
  split; [exact Hinv|]. split; [apply remove_result|].
  exact (remove_nothing_unlocks (lock fruit3) _ Hinv
           (remove_result [] (lock fruit3))).
Defined.

Lemma remove_keeps_order_witness :
  bimap_inv fruit3 ∧ (remove ["oranges"] fruit3).1 = Return no_oranges ∧
  obj_to_atom fruit3 !! "apples" = Some 1 ∧
  obj_to_atom fruit3 !! "pears" = Some 3 ∧
  obj_to_atom no_oranges !! "apples" = Some 1 ∧
  obj_to_atom no_oranges !! "pears" = Some 2 ∧
  1 ≤ 1 ≤ 1 ∧ (1 < 3 → 1 < 2).
Proof.
  split; [exact fruit3_inv|]. split; [exact remove_oranges|].
  split; [reflexivity|]. split; [reflexivity|].
  split; [reflexivity|]. split; [reflexivity|].
  exact (remove_keeps_order ["oranges"] fruit3 no_oranges "apples" "pears"
           1 3 1 2 fruit3_inv remove_oranges eq_refl eq_refl eq_refl eq_refl).
Defined.

Lemma no_oranges_inv : bimap_inv no_oranges.
Proof. apply insert_all_inv, inv_init. Qed.

Lemma convertAtom_same_object_witness :
  bimap_inv no_oranges ∧ (convertAtom fruit3 no_oranges 3).1 = Return 2 ∧
  ∃ o, get_object 3 fruit3 = Return o ∧ get_object 2 no_oranges = Return o.
Proof.
  split; [exact no_oranges_inv|]. split; [reflexivity|].
  exact (convertAtom_same_object fruit3 no_oranges 3 2 no_oranges_inv eq_refl).
Defined.

Lemma fruit3_atom_2 : 1 ≤ 2 ≤ len fruit3.
Proof. by vm_compute. Qed.

Lemma convertAtom_same_factory_witness :
  bimap_inv fruit3 ∧ 1 ≤ 2 ≤ len fruit3 ∧
  convertAtom fruit3 fruit3 2 = (Return 2, (fruit3, fruit3)).
Proof.
  split; [exact fruit3_inv|]. split; [exact fruit3_atom_2|].
  exact (convertAtom_same_factory fruit3 2 fruit3_inv fruit3_atom_2).
Defined.

Lemma convertAtom_after_remove_witness :
  bimap_inv fruit3 ∧ 1 ≤ 2 ≤ len fruit3 ∧
  (remove ["oranges"] fruit3).1 = Return no_oranges ∧
  ∃ o, get_object 2 fruit3 = Return o ∧
    if bool_decide (o ∈ ["oranges"])
    then convertAtom fruit3 no_oranges 2
         = (Raise (if formats o then IllegalOperation else TypeError),
            (fruit3, no_oranges))
    else ∃ b, convertAtom fruit3 no_oranges 2 = (Return b, (fruit3, no_oranges))
              ∧ get_object b no_oranges = Return o.
Proof.
  split; [exact fruit3_inv|]. split; [exact fruit3_atom_2|].
  split; [exact remove_oranges|].
  exact (convertAtom_after_remove ["oranges"] fruit3 no_oranges 2 fruit3_inv
           fruit3_atom_2 remove_oranges).
Defined.

Lemma counts_in_range :
  Forall (λ item : Z * nat, - len fruit3 < item.1 ≤ len fruit3) counts.
Proof. repeat constructor; by vm_compute. Qed.

Lemma counts_valid :
  Forall (λ item : Z * nat, 1 ≤ item.1 ≤ len fruit3) counts.
Proof. repeat constructor; by vm_compute. Qed.

Lemma strings_format (f : AtomFactory string) :
  ∀ o : string, o ∈ atom_to_obj f → formats o = true.
Proof. done. Qed.

Lemma convertAtomVector_in_range_witness :
  Forall (λ item : Z * nat, - len fruit3 < item.1 ≤ len fruit3) counts ∧
  (∀ o : string, o ∈ atom_to_obj fruit3 → formats o = true) ∧
  convertAtomVector fruit3 no_oranges counts
  = (Return (omap (converted_item fruit3 no_oranges) counts),
     (fruit3, no_oranges)).
Proof.
  split; [exact counts_in_range|]. split; [exact (strings_format fruit3)|].
  exact (convertAtomVector_in_range fruit3 no_oranges counts counts_in_range
           (strings_format fruit3)).
Defined.

Lemma stray_prefix_in_range :
  Forall (λ item : Z * nat, - len fruit3 < item.1 ≤ len fruit3) [(1, 10%nat)].
Proof. repeat constructor; by vm_compute. Qed.

Lemma stray_out_of_range : 7 > len fruit3 ∨ 7 ≤ - len fruit3.
Proof. left. by vm_compute. Qed.

Lemma convertAtomVector_out_of_range_witness :
  Forall (λ item : Z * nat, - len fruit3 < item.1 ≤ len fruit3) [(1, 10%nat)] ∧
  (∀ o : string, o ∈ atom_to_obj fruit3 → formats o = true) ∧
  (7 > len fruit3 ∨ 7 ≤ - len fruit3) ∧
  convertAtomVector fruit3 no_oranges ([(1, 10%nat)] ++ (7, 70%nat) :: [])
  = (Raise IndexError, (fruit3, no_oranges)).
Proof.
  split; [exact stray_prefix_in_range|].
  split; [exact (strings_format fruit3)|]. split; [exact stray_out_of_range|].
  exact (convertAtomVector_out_of_range fruit3 no_oranges [(1, 10%nat)] []
           7 70%nat stray_prefix_in_range (strings_format fruit3)
           stray_out_of_range).
Defined.

Lemma oranges_format : Forall (λ o : string, formats o = true) ["oranges"].
Proof. by repeat constructor. Qed.

Lemma convertAtomVector_after_remove_witness :
  bimap_inv fruit3 ∧ (remove ["oranges"] fruit3).1 = Return no_oranges ∧
  Forall (λ item : Z * nat, 1 ≤ item.1 ≤ len fruit3) counts ∧
  Forall (λ o : string, formats o = true) ["oranges"] ∧
  ∃ new_av,
    convertAtomVector fruit3 no_oranges counts
    = (Return new_av, (fruit3, no_oranges)) ∧
    named_items no_oranges new_av
    = filter (λ p, p.1 ∉ ["oranges"]) (named_items fruit3 counts).
Proof.
  split; [exact fruit3_inv|]. split; [exact remove_oranges|].
  split; [exact counts_valid|]. split; [exact oranges_format|].
  exact (convertAtomVector_after_remove ["oranges"] fruit3 no_oranges counts
           fruit3_inv remove_oranges counts_valid oranges_format).
Defined.

Lemma tagged_first_converts :
  Forall (λ item : Z * nat, is_Some (converted_item tagged tagged_apples item))
    [(1, 10%nat)].
Proof. repeat constructor. by eexists. Qed.

Lemma convertAtomVector_unformattable_witness :
  Forall (λ item : Z * nat, is_Some (converted_item tagged tagged_apples item))
    [(1, 10%nat)] ∧
  get_object 2 tagged = Return ("token", "oranges") ∧
  obj_to_atom tagged_apples !! ("token", "oranges") = None ∧
  formats ("token", "oranges") = false ∧
  convertAtomVector tagged tagged_apples
    ([(1, 10%nat)] ++ (2, 20%nat) :: [(1, 30%nat)])
  = (Raise TypeError, (tagged, tagged_apples)).
Proof.
  split; [exact tagged_first_converts|]. split; [reflexivity|].
  split; [reflexivity|]. split; [reflexivity|].
  exact (convertAtomVector_unformattable tagged tagged_apples [(1, 10%nat)]
           [(1, 30%nat)] 2 20%nat ("token", "oranges") tagged_first_converts
           eq_refl eq_refl eq_refl).
Defined.

(** On tuple keys an absent object raises [TypeError], not
    [IllegalOperation]. *)
Example convertAtom_tuple_absent :
  convertAtom tagged tagged_apples 2 = (Raise TypeError, (tagged, tagged_apples)) ∧
  convertAtom tagged tagged_apples 1 = (Return 1, (tagged, tagged_apples)).
Proof. split; reflexivity. Qed.


(** What the conversions above come to. *)
Example counts_converted :
  convertAtomVector fruit3 no_oranges counts
  = (Return [(1, 10%nat); (2, 30%nat)], (fruit3, no_oranges)) ∧
  savetxt id fruit3
  = ["apples" +:+ nl; "oranges" +:+ nl; "pears" +:+ nl].
Proof. split; reflexivity. Qed.

End AtomFactoryMore.

(** * Further properties of the parsers *)

Module StringMore.
Import Py IO IOFacts.

Lemma prefix_empty (s : string) : String.prefix "" s = true.
Proof. by destruct s. Qed.

Lemma prefix_char_cons (c a : ascii) (s : string) :
  String.prefix (String c "") (String a s) = Ascii.eqb a c.
Proof.
  change (String.prefix (String c "") (String a s))
    with (if Ascii.ascii_dec c a then String.prefix "" s else false).
  destruct (Ascii.ascii_dec c a) as [->|Hne].
  - by rewrite prefix_empty, Ascii.eqb_refl.
  - symmetry. apply Ascii.eqb_neq. congruence.
Qed.

Lemma index_cons (c a : ascii) (s : string) :
  String.index 0 (String c "") (String a s)
  = if Ascii.eqb a c then Some 0%nat
    else match String.index 0 (String c "") s with
         | Some n => Some (Datatypes.S n)
         | None => None
         end.
Proof.
  change (String.index 0 (String c "") (String a s))
    with (if String.prefix (String c "") (String a s) then Some 0%nat
          else match String.index 0 (String c "") s with
               | Some n => Some (Datatypes.S n)
               | None => None
               end).
  by rewrite prefix_char_cons.
Qed.

(** Where the first [c] is, in a string whose head lacks it. *)
Lemma index_after_lacking (c : ascii) (s rest : string) :
  lacks c s = true →
  String.index 0 (String c "") (s +:+ String c rest)
  = Some (String.length s).
Proof.
  induction s as [|a s IH]; intros Hl.
  - change ("" +:+ String c rest) with (String c rest).
    by rewrite index_cons, Ascii.eqb_refl.
  - simpl in Hl. apply andb_true_iff in Hl as [Ha Hl].
    change (String a s +:+ String c rest) with (String a (s +:+ String c rest)).
    rewrite index_cons. apply negb_true_iff in Ha. rewrite Ha.
    by rewrite (IH Hl).
Qed.

Lemma index_lacking (c : ascii) (s : string) :
  lacks c s = true → String.index 0 (String c "") s = None.
Proof.
  induction s as [|a s IH]; intros Hl; [done|].
  simpl in Hl. apply andb_true_iff in Hl as [Ha Hl].
  rewrite index_cons. apply negb_true_iff in Ha. rewrite Ha.
  by rewrite (IH Hl).
Qed.

Lemma length_app_string (s t : string) :
  String.length (s +:+ t) = (String.length s + String.length t)%nat.
Proof. induction s as [|a s IH]; [done|]. simpl. by rewrite IH. Qed.

Lemma substring_head (s t : string) :
  String.substring 0 (String.length s) (s +:+ t) = s.
Proof.
  induction s as [|a s IH]; [by destruct t|]. simpl. by rewrite IH.
Qed.

Lemma substring_skip (n m : nat) (s t : string) :
  String.substring (String.length s + n) m (s +:+ t) = String.substring n m t.
Proof. induction s as [|a s IH]; [done|]. simpl. by rewrite IH. Qed.

Lemma append_assoc (a b c : string) : (a +:+ b) +:+ c = a +:+ b +:+ c.
Proof.
  induction a as [|x a IH]; [done|].
  change ((String x a +:+ b) +:+ c) with (String x ((a +:+ b) +:+ c)).
  by rewrite IH.
Qed.

Lemma rev_app_rev_app (a b c : string) :
  String.rev_app (String.rev_app a b) c = String.rev_app b (a +:+ c).
Proof.
  revert b c. induction a as [|x a IH]; intros b c; [done|].
  simpl. rewrite IH. done.
Qed.

Lemma app_empty_r (a : string) : a +:+ "" = a.
Proof.
  induction a as [|x a IH]; [done|].
  change (String x a +:+ "") with (String x (a +:+ "")). by rewrite IH.
Qed.

Lemma rev_rev_app (a : string) : String.rev (String.rev_app a "") = a.
Proof.
  unfold String.rev. rewrite rev_app_rev_app.
  change (String.rev_app "" (a +:+ "")) with (a +:+ ""). apply app_empty_r.
Qed.

Lemma startswith_app (p x : string) : startswith (p +:+ x) p = true.
Proof.
  unfold startswith. induction p as [|c p IH]; [apply prefix_empty|].
  change (String c p +:+ x) with (String c (p +:+ x)).
  rewrite SMARTFacts.prefix_cons. by destruct (Ascii.ascii_dec c c).
Qed.

Lemma index_skip (p t sub : string) (n : nat) :
  String.index (String.length p + n) sub (p +:+ t)
  = (λ k, (String.length p + k)%nat) <$> String.index n sub t.
Proof.
  induction p as [|c p IH].
  { change (String.index n sub t = (λ k : nat, k) <$> String.index n sub t).
    by destruct (String.index n sub t). }
  change (String c p +:+ t) with (String c (p +:+ t)).
  change (String.index (String.length (String c p) + n) sub
            (String c (p +:+ t)))
    with (match String.index (String.length p + n) sub (p +:+ t) with
          | Some k => Some (Datatypes.S k)
          | None => None
          end).
  rewrite IH. by destruct (String.index n sub t).
Qed.

(** [find] past a prefix [p], in a string that goes on with [x] and
    then the character [c]: the position right after [x]. *)
Lemma find_past (p x rest : string) (c : ascii) :
  lacks c x = true →
  find (p +:+ x +:+ String c rest) (String c "") (String.length p)
  = Z.of_nat (String.length p + String.length x).
Proof.
  intros Hx. unfold find.
  rewrite <-(Nat.add_0_r (String.length p)) at 1.
  by rewrite index_skip, (index_after_lacking c x rest Hx).
Qed.

Lemma find_past_none (p x : string) (c : ascii) :
  lacks c x = true →
  find (p +:+ x) (String c "") (String.length p) = -1.
Proof.
  intros Hx. unfold find.
  rewrite <-(Nat.add_0_r (String.length p)) at 1.
  by rewrite index_skip, (index_lacking c x Hx).
Qed.

(** [s[len(p) : len(p) + len(x)]] of [s = p + x + t] is [x]. *)
Lemma slice_inner (p x t : string) :
  slice (p +:+ x +:+ t) (Z.of_nat (String.length p))
    (Z.of_nat (String.length p + String.length x))
  = x.
Proof.
  unfold slice, slice_bound. rewrite !length_app_string.
  assert ((Z.of_nat (String.length p) <? 0) = false) as ->
    by (apply Z.ltb_ge; lia).
  assert ((Z.of_nat (String.length p + String.length x) <? 0) = false) as ->
    by (apply Z.ltb_ge; lia).
  replace (Z.to_nat (Z.min (Z.of_nat (String.length p)) _))
    with (String.length p + 0)%nat by lia.
  replace (Z.to_nat (Z.min _ _ - Z.min _ _)) with (String.length x) by lia.
  by rewrite substring_skip, substring_head.
Qed.

(** [s[len(p) : -1]] of [s = p + x] is [x] without its last character. *)
Lemma slice_to_last (p x : string) :
  slice (p +:+ x) (Z.of_nat (String.length p)) (-1)
  = String.substring 0 (String.length x - 1) x.
Proof.
  unfold slice, slice_bound. rewrite !length_app_string.
  assert ((Z.of_nat (String.length p) <? 0) = false) as ->
    by (apply Z.ltb_ge; lia).
  change (-1 <? 0) with true. cbv iota.
  replace (Z.to_nat (Z.min (Z.of_nat (String.length p)) _))
    with (String.length p + 0)%nat by lia.
  replace (Z.to_nat (Z.max _ _ - Z.min _ _)) with (String.length x - 1)%nat
    by lia.
  by rewrite substring_skip.
Qed.

End StringMore.

Module EngineMore.
Import Py IO IOFacts.

(** Once the body has run, the loop variable is bound. *)
Lemma for_loop_line_bound {S : Type} (fns : gmap string (method S))
    (fin : list string) (fr fr' : frame S) c :
  fin ≠ [] → for_loop fns fin fr = (c, fr') → is_Some (f_line fr').
Proof.
  revert fr. induction fin as [|l fin IH]; intros fr Hne; [done|].
  rewrite for_loop_cons.
  destruct (loop_body fns l fr) as [c1 fr1] eqn:Hb.
  pose proof (loop_body_line _ _ _ _ _ Hb) as Hl.
  destruct c1 as [| |e]; try (intros [= <- <-]; eauto; fail).
  destruct fin as [|l' fin]; [intros [= <- <-]; eauto|].
  by apply IH.
Qed.

(** *** Composing runs of the loop *)

Section Reaches.
Context {S : Type}.
Implicit Types (fns : gmap string (method S)) (fr : frame S).

Lemma reaches_nil fns fr : reaches fns [] fr Normal (f_state fr) (f_self fr).
Proof. by exists fr. Qed.

Lemma reaches_app fns xs ys fr st s c st' s' :
  reaches fns xs fr Normal st s →
  (∀ fr1, f_state fr1 = st → f_self fr1 = s → reaches fns ys fr1 c st' s') →
  reaches fns (xs ++ ys) fr c st' s'.
Proof.
  intros (fr1 & Hxs & Hst & Hs) Hys.
  destruct (Hys fr1 Hst Hs) as (fr2 & Hloop & Hst' & Hs').
  exists fr2. by rewrite for_loop_app, Hxs.
Qed.

Lemma reaches_break fns xs ys fr st s :
  reaches fns xs fr Break st s → reaches fns (xs ++ ys) fr Break st s.
Proof.
  intros (fr1 & Hxs & Hst & Hs). exists fr1. by rewrite for_loop_app, Hxs.
Qed.

(** One line, through the function of the current state. *)
Lemma reaches_step fns line fr fn r s' :
  fns !! f_state fr = Some fn → fn line (f_self fr) = (r, s') →
  reaches fns [line] fr
    (if is_False r then Break else Normal)
    (match r with PyStr st => st | _ => f_state fr end) s'.
Proof.
  intros Hfn Hr. unfold reaches. rewrite for_loop_cons. unfold loop_body.
  rewrite Hfn, Hr. destruct r; simpl; eauto.
Qed.

(** Lines the current state's function ignores. *)
Lemma reaches_ignored fns lines fn st (s : S) :
  fns !! st = Some fn →
  Forall (λ l, fn l s = (PyNone, s)) lines →
  ∀ fr, f_state fr = st → f_self fr = s → reaches fns lines fr Normal st s.
Proof.
  intros Hfn Hall. induction Hall as [|l lines Hl _ IH]; intros fr Hst Hs.
  { rewrite <-Hst, <-Hs. apply reaches_nil. }
  apply (reaches_app fns [l] lines fr st s); [|exact IH].
  rewrite <-Hst in Hfn |- *. rewrite <-Hs in Hl.
  pose proof (reaches_step fns l fr fn PyNone (f_self fr) Hfn Hl) as Hstep.
  by rewrite Hs in Hstep.
Qed.

End Reaches.

(** *** Dispatch *)

(** X23: when the current state has no function, [parse] raises
    [KeyError] on the next line: that line reaches no state function,
    [onFinish] is not called and the instance stays as the lines before
    left it. *)
Theorem parse_unregistered_state {S : Type} (m : machine S)
    (pre post : list string) (l : string) (self : S) (fr : frame S)
    (Hpre : for_loop (introspect m) pre (initial_frame m self) = (Normal, fr))
    (Hnone : introspect m !! f_state fr = None) :
  parse m (pre ++ l :: post) self = (Raise KeyError, f_self fr, f_trace fr).
Proof.
  unfold parse. rewrite for_loop_app, Hpre, for_loop_cons.
  unfold loop_body. by rewrite Hnone.
Qed.

(** *** [__introspect] *)

Lemma substring_all (s : string) : String.substring 0 (String.length s) s = s.
Proof. induction s as [|a s IH]; [done|]. simpl. by rewrite IH. Qed.

Lemma slice_from_on (st : string) : slice_from ("on" +:+ st) 2 = st.
Proof.
  unfold slice_from, slice, slice_bound.
  change (String.length ("on" +:+ st))
    with (Datatypes.S (Datatypes.S (String.length st))).
  assert ((Z.of_nat (Datatypes.S (Datatypes.S (String.length st))) <? 0) = false)
    as -> by (apply Z.ltb_ge; lia).
  change (2 <? 0) with false. cbv iota.
  replace (Z.to_nat (Z.min 2 _)) with 2%nat by lia.
  replace (Z.to_nat (Z.min _ _ - Z.min 2 _)) with (String.length st) by lia.
  change (String.substring 2 (String.length st) ("on" +:+ st))
    with (String.substring 0 (String.length st) st).
  apply substring_all.
Qed.

Lemma startswith_on (name : string) :
  startswith name "on" = true → ∃ st, name = "on" +:+ st.
Proof.
  unfold startswith. destruct name as [|a [|b st]]; [done| |].
  - rewrite SMARTFacts.prefix_cons. by destruct (Ascii.ascii_dec "o" a).
  - rewrite !SMARTFacts.prefix_cons.
    destruct (Ascii.ascii_dec "o" a) as [<-|]; [|done].
    destruct (Ascii.ascii_dec "n" b) as [<-|]; [|done].
    intros _. by exists st.
Qed.

Lemma introspect_fold {S : Type} (attrs : list (string * method S))
    (acc : gmap string (method S)) (st : string) (fn : method S) :
  NoDup attrs.*1 →
  foldl introspect_step acc attrs !! st = Some fn ↔
  ("on" +:+ st, fn) ∈ attrs
  ∨ ((¬ ("on" +:+ st) ∈ attrs.*1) ∧ acc !! st = Some fn).
Proof.
  revert acc. induction attrs as [|[name f] attrs IH]; intros acc Hnd.
  { simpl. split; [intros Hacc; right; split; [apply not_elem_of_nil|done]|].
    intros [Hin|[_ Hacc]]; [by apply elem_of_nil in Hin|done]. }
  rewrite fmap_cons in Hnd. apply NoDup_cons in Hnd as [Hname Hnd].
  simpl. rewrite (IH _ Hnd). unfold introspect_step. simpl.
  rewrite elem_of_cons, not_elem_of_cons.
  destruct (startswith name "on") eqn:Hon.
  - destruct (startswith_on name Hon) as (st' & ->).
    rewrite slice_from_on. rewrite lookup_insert.
    destruct (decide (st' = st)) as [->|Hne].
    + split.
      * intros [Hin|[Hnot [= ->]]]; [|by left; left].
        destruct Hname. apply list_elem_of_fmap. by exists ("on" +:+ st, fn).
      * intros [[[= ->]|Hin]|[[Hnot _] _]]; [right; split; [done|done]| |done].
        destruct Hname. apply list_elem_of_fmap. by exists ("on" +:+ st, fn).
    + assert ("on" +:+ st ≠ "on" +:+ st') as Hne'
        by (intros Heq; apply Hne; by injection Heq).
      split.
      * intros [Hin|[Hnot Hacc]]; [by left; right|]. right. tauto.
      * intros [[[= Heq _]|Hin]|[[_ Hnot] Hacc]]; [by destruct Hne| |].
        -- by left.
        -- right. tauto.
  - assert ("on" +:+ st ≠ name) as Hne.
    { intros <-. by rewrite StringMore.startswith_app in Hon. }
    split.
    + intros [Hin|[Hnot Hacc]]; [by left; right|]. right. tauto.
    + intros [[[= Heq _]|Hin]|[[_ Hnot] Hacc]]; [done| |].
      * by left.
      * right. tauto.
Qed.

(** X24: [__introspect] registers exactly the methods whose name begins
    with [on], each under the rest of its name; [onFinish] is among
    them, under [Finish]. *)
Theorem introspect_table {S : Type} (m : machine S) (st : string)
    (fn : method S) (Hnd : NoDup (dir m).*1) :
  introspect m !! st = Some fn ↔ ("on" +:+ st, fn) ∈ dir m.
Proof.
  unfold introspect. rewrite (introspect_fold _ _ _ _ Hnd).
  rewrite lookup_empty. split; [|by left].
  by intros [Hin|[_ Hnone]].
Qed.

(** *** On the classes of the examples *)

Import Examples.

Lemma trec_dir_NoDup : NoDup (dir TrecParser.cls).*1.
Proof. apply (bool_decide_unpack _). by vm_compute. Qed.

Lemma introspect_table_witness :
  NoDup (dir TrecParser.cls).*1 ∧
  (introspect TrecParser.cls !! "Text" = Some TrecParser.onText ↔
   ("on" +:+ "Text", TrecParser.onText) ∈ dir TrecParser.cls).
Proof.
  split; [exact trec_dir_NoDup|].
  exact (introspect_table TrecParser.cls "Text" TrecParser.onText
           trec_dir_NoDup).
Defined.

Lemma parse_unregistered_state_witness :
  for_loop (introspect trec_default_start) []
    (initial_frame trec_default_start (TrecParser.init cb_go))
  = (Normal, initial_frame trec_default_start (TrecParser.init cb_go)) ∧
  introspect trec_default_start
    !! f_state (initial_frame trec_default_start (TrecParser.init cb_go))
  = None ∧
  parse trec_default_start ([] ++ trec_close :: trec_second_doc)
    (TrecParser.init cb_go)
  = (Raise KeyError,
     f_self (initial_frame trec_default_start (TrecParser.init cb_go)),
     f_trace (initial_frame trec_default_start (TrecParser.init cb_go))).
Proof.
  split; [reflexivity|]. split; [reflexivity|].
  exact (parse_unregistered_state trec_default_start [] trec_second_doc
           trec_close (TrecParser.init cb_go) _ eq_refl eq_refl).
Defined.

End EngineMore.

Module TrecMore.
Import Py IO Examples IOFacts IOFacts.TrecFacts EngineMore TrecParser.

Implicit Types (fr : frame TrecParser) (cb : list record → record → pyret).

(** The loop is never left by an exception. *)
Lemma loop_no_throw cb (fin : list string) fr c fr' :
  is_state (f_state fr) → callback (f_self fr) = cb →
  all_go cb (calls (f_self fr)) →
  for_loop (introspect cls) fin fr = (c, fr') →
  ∀ e, c ≠ Throw e.
Proof.
  intros Hst Hcb Hgo Hloop e ->.
  by destruct (loop_stop cb fin fr fr' _ Hst Hcb Hgo Hloop).
Qed.

(** X15: on every source with at least one line, whatever the lines and
    the callback, [TrecParser.parse] returns: no state is ever looked up
    that has no function. *)
Theorem trec_parse_returns cb (l : string) (fin : list string) :
  (run cb (l :: fin)).1.1 = Return ().
Proof.
  unfold run, parse.
  destruct (for_loop (introspect cls) (l :: fin) (initial_frame cls (init cb)))
    as [c fr] eqn:Hloop.
  destruct (for_loop_line_bound _ (l :: fin) _ _ _ ltac:(done) Hloop)
    as [l' Hl].
  assert (is_state (f_state (initial_frame cls (init cb)))) as Hst by (by left).
  pose proof (loop_no_throw cb _ _ c fr Hst eq_refl (all_go_nil cb) Hloop)
    as Hthrow.
  destruct c as [| |e]; [| |by destruct (Hthrow e)];
    unfold finish; by rewrite Hl.
Qed.

(** *** Whole documents *)

Lemma text_collects (ls : list string) fr (self : TrecParser) :
  f_state fr = "Text" → f_self fr = self →
  Forall (λ l, startswith l "</TEXT>" = false) ls →
  reaches (introspect cls) ls fr Normal "Text"
    (mkTrec (docid self) (textlines self ++ ls) (callback self) (calls self)).
Proof.
  intros Hst Hs Hall. revert fr self Hst Hs.
  induction Hall as [|l ls Hl _ IH]; intros fr self Hst Hs.
  { rewrite app_nil_r. exists fr. split_and!; [done|done|].
    rewrite Hs. by destruct self. }
  apply (reaches_app _ [l] ls fr "Text"
           (mkTrec (docid self) (textlines self ++ [l]) (callback self)
              (calls self))).
  - assert (introspect cls !! f_state fr = Some onText) as Hfn
      by (rewrite Hst; apply trec_fns_Text).
    assert (onText l (f_self fr)
            = (PyNone, mkTrec (docid self) (textlines self ++ [l])
                         (callback self) (calls self))) as Hr
      by (unfold onText; by rewrite Hl, Hs).
    pose proof (reaches_step _ l fr onText _ _ Hfn Hr) as Hstep.
    simpl in Hstep. by rewrite Hst in Hstep.
  - intros fr1 Hst1 Hs1.
    specialize (IH fr1 _ Hst1 Hs1). simpl in IH.
    by rewrite <-app_assoc in IH.
Qed.

(** One well-formed document, read from state Misc: the callback gets
    its record; the loop goes on in Misc unless the answer is [False]. *)
Lemma trec_doc_reaches cb (d : doc) fr :
  well_formed d → f_state fr = "Misc" → callback (f_self fr) = cb →
  reaches (introspect cls) (doc_lines d) fr
    (if is_False (cb (calls (f_self fr)) (doc_record d)) then Break else Normal)
    (if is_False (cb (calls (f_self fr)) (doc_record d)) then "Text" else "Misc")
    (mkTrec (doc_record d).1 (doc_body d) cb
       (calls (f_self fr) ++ [doc_record d])).
Proof.
  intros (Hid & Hgap & Hopen & Hbody & Hclose & Htrail) Hst Hcb.
  set (s1 := mkTrec (doc_record d).1 [] cb (calls (f_self fr))).
  set (s2 := mkTrec (doc_record d).1 (doc_body d) cb (calls (f_self fr))).
  change (doc_lines d)
    with ([doc_id_line d] ++ doc_gap d ++ [doc_open d] ++ doc_body d
            ++ [doc_close d] ++ doc_trail d).
  apply (reaches_app _ _ _ fr "GotDocId" s1).
  { assert (introspect cls !! f_state fr = Some onMisc) as Hfn
      by (rewrite Hst; apply trec_fns_Misc).
    assert (onMisc (doc_id_line d) (f_self fr) = (PyStr "GotDocId", s1)) as Hr
      by (unfold onMisc; by rewrite Hid, Hcb).
    exact (reaches_step _ _ fr onMisc _ _ Hfn Hr). }
  intros fr1 Hst1 Hs1.
  apply (reaches_app _ _ _ fr1 "GotDocId" s1).
  { apply (reaches_ignored _ _ onGotDocId); [apply trec_fns_GotDocId| |done|done].
    eapply Forall_impl; [exact Hgap|]. intros l Hl. simpl in Hl.
    unfold onGotDocId. by rewrite Hl. }
  intros fr2 Hst2 Hs2.
  apply (reaches_app _ _ _ fr2 "Text" s1).
  { assert (introspect cls !! f_state fr2 = Some onGotDocId) as Hfn
      by (rewrite Hst2; apply trec_fns_GotDocId).
    assert (onGotDocId (doc_open d) (f_self fr2) = (PyStr "Text", s1)) as Hr
      by (unfold onGotDocId; by rewrite Hopen, Hs2).
    exact (reaches_step _ _ fr2 onGotDocId _ _ Hfn Hr). }
  intros fr3 Hst3 Hs3.
  apply (reaches_app _ _ _ fr3 "Text" s2).
  { exact (text_collects (doc_body d) fr3 s1 Hst3 Hs3 Hbody). }
  intros fr4 Hst4 Hs4.
  assert (introspect cls !! f_state fr4 = Some onText) as Hfn
    by (rewrite Hst4; apply trec_fns_Text).
  destruct (is_False (cb (calls (f_self fr)) (doc_record d))) eqn:Hstop.
  - apply reaches_break.
    assert (onText (doc_close d) (f_self fr4)
            = (PyFalse, mkTrec (doc_record d).1 (doc_body d) cb
                          (calls (f_self fr) ++ [doc_record d]))) as Hr.
    { unfold onText, call_callback. rewrite Hclose, Hs4. simpl.
      fold (doc_record d). by rewrite Hstop. }
    pose proof (reaches_step _ _ fr4 onText _ _ Hfn Hr) as Hstep.
    simpl in Hstep. by rewrite Hst4 in Hstep.
  - apply (reaches_app _ _ _ fr4 "Misc"
             (mkTrec (doc_record d).1 (doc_body d) cb
                (calls (f_self fr) ++ [doc_record d]))).
    + assert (onText (doc_close d) (f_self fr4)
              = (PyStr "Misc", mkTrec (doc_record d).1 (doc_body d) cb
                                 (calls (f_self fr) ++ [doc_record d]))) as Hr.
      { unfold onText, call_callback. rewrite Hclose, Hs4. simpl.
        fold (doc_record d). by rewrite Hstop. }
      exact (reaches_step _ _ fr4 onText _ _ Hfn Hr).
    + apply (reaches_ignored _ _ onMisc); [apply trec_fns_Misc|].
      eapply Forall_impl; [exact Htrail|]. intros l Hl. simpl in Hl.
      unfold onMisc. by rewrite Hl.
Qed.

(** A sequence of documents, read from state Misc. *)
Lemma trec_docs_reach cb (docs : list doc) :
  Forall well_formed docs →
  ∀ fr, f_state fr = "Misc" → callback (f_self fr) = cb →
  ∃ c fr', for_loop (introspect cls) (concat (doc_lines <$> docs)) fr = (c, fr')
    ∧ calls (f_self fr')
      = calls (f_self fr) ++ delivered cb (calls (f_self fr)) (doc_record <$> docs).
Proof.
  intros Hall. induction Hall as [|d docs Hd _ IH]; intros fr Hst Hcb.
  { exists Normal, fr. simpl. by rewrite app_nil_r. }
  rewrite !fmap_cons, concat_cons, for_loop_app. cbn [delivered].
  destruct (trec_doc_reaches cb d fr Hd Hst Hcb) as (fr1 & Hloop & Hst1 & Hs1).
  rewrite Hloop.
  destruct (is_False (cb (calls (f_self fr)) (doc_record d))).
  - exists Break, fr1. by rewrite Hs1.
  - destruct (IH fr1) as (c & fr2 & Hloop2 & Hcalls);
      [done|by rewrite Hs1|].
    exists c, fr2. split; [done|].
    rewrite Hcalls, Hs1. simpl. by rewrite <-app_assoc.
Qed.

(** X16: on a source made of well-formed documents, the callback is
    invoked on the record of each document in turn, the text being the
    lines of its TEXT section joined, up to and including the first
    document on which it answers [False]. *)
Theorem trec_delivers cb (lead : list string) (docs : list doc)
    (Hlead : Forall (λ l, startswith l "<DOCNO>" = false) lead)
    (Hdocs : Forall well_formed docs) :
  calls (run cb (lead ++ concat (doc_lines <$> docs))).1.2
  = delivered cb [] (doc_record <$> docs).
Proof.
  rewrite run_self, for_loop_app.
  assert (reaches (introspect cls) lead (initial_frame cls (init cb))
            Normal "Misc" (init cb)) as (fr0 & Hloop0 & Hst0 & Hs0).
  { apply (reaches_ignored _ _ onMisc); [apply trec_fns_Misc| |done|done].
    eapply Forall_impl; [exact Hlead|]. intros l Hl. simpl in Hl.
    unfold onMisc. by rewrite Hl. }
  rewrite Hloop0.
  destruct (trec_docs_reach cb docs Hdocs fr0) as (c & fr' & Hloop & Hcalls);
    [done|by rewrite Hs0|].
  rewrite Hloop. simpl. by rewrite Hcalls, Hs0.
Qed.

(** *** The document id *)

(** X17: from a line [<DOCNO>id<...] with no [<] inside [id], [onMisc]
    takes [id] stripped of surrounding white space as the document id;
    when nothing follows [id] on the line, [find] answers [-1] and the
    slice [line[7:-1]] drops the last character of [id], normally the
    newline. *)
Theorem docno_line_id (id rest : string) (self : TrecParser)
    (Hid : lacks "<" id = true) :
  onMisc ("<DOCNO>" +:+ id +:+ String "<" rest) self
  = (PyStr "GotDocId",
     mkTrec (Some (strip id)) [] (callback self) (calls self)) ∧
  onMisc ("<DOCNO>" +:+ id) self
  = (PyStr "GotDocId",
     mkTrec (Some (strip (String.substring 0 (String.length id - 1) id))) []
       (callback self) (calls self)).
Proof.
  unfold onMisc. rewrite !StringMore.startswith_app. split.
  - change 7%nat with (String.length "<DOCNO>").
    rewrite (StringMore.find_past "<DOCNO>" id rest "<" Hid).
    change 7 with (Z.of_nat (String.length "<DOCNO>")).
    by rewrite StringMore.slice_inner.
  - change 7%nat with (String.length "<DOCNO>").
    rewrite (StringMore.find_past_none "<DOCNO>" id "<" Hid).
    change 7 with (Z.of_nat (String.length "<DOCNO>")).
    by rewrite StringMore.slice_to_last.
Qed.

(** *** After the stop *)

(** X26: whatever the source, once the callback has answered [False]
    to a record, [TrecParser.parse] invokes it on no further record. *)
Theorem trec_no_call_after_stop cb (fin : list string)
    (log1 log2 : list record) (r : record)
    (Hcalls : calls (run cb fin).1.2 = log1 ++ r :: log2)
    (Hstop : cb log1 r = PyFalse) :
  log2 = [].
Proof.
  pose proof (trec_stop_halts cb fin (length log1) r) as Hhalt.
  rewrite Hcalls in Hhalt.
  rewrite list_lookup_middle, take_app_length in Hhalt by done.
  specialize (Hhalt eq_refl Hstop).
  rewrite length_app in Hhalt. simpl in Hhalt.
  destruct log2; [done|]. simpl in Hhalt. lia.
Qed.

Lemma trec_no_call_after_stop_witness :
  calls (run cb_second (concat (doc_lines <$> [trec_doc1; trec_doc2;
                                               trec_doc1]))).1.2
  = [doc_record trec_doc1] ++ doc_record trec_doc2 :: [] ∧
  cb_second [doc_record trec_doc1] (doc_record trec_doc2) = PyFalse ∧
  @nil record = [].
Proof.
  split; [reflexivity|]. split; [reflexivity|].
  exact (trec_no_call_after_stop cb_second
           (concat (doc_lines <$> [trec_doc1; trec_doc2; trec_doc1]))
           [doc_record trec_doc1] [] (doc_record trec_doc2) eq_refl eq_refl).
Defined.

(** *** On the documents of the examples *)

Lemma trec_lead_ok :
  Forall (λ l, startswith l "<DOCNO>" = false) ["<DOC>" +:+ nl].
Proof. by repeat constructor. Qed.

Lemma trec_docs_ok : Forall well_formed [trec_doc1; trec_doc2].
Proof. repeat constructor. Qed.

Lemma trec_delivers_witness :
  Forall (λ l, startswith l "<DOCNO>" = false) ["<DOC>" +:+ nl] ∧
  Forall well_formed [trec_doc1; trec_doc2] ∧
  calls (run cb_go (["<DOC>" +:+ nl]
                      ++ concat (doc_lines <$> [trec_doc1; trec_doc2]))).1.2
  = delivered cb_go [] (doc_record <$> [trec_doc1; trec_doc2]).
Proof.
  split; [exact trec_lead_ok|]. split; [exact trec_docs_ok|].
  exact (trec_delivers cb_go ["<DOC>" +:+ nl] [trec_doc1; trec_doc2]
           trec_lead_ok trec_docs_ok).
Defined.

Lemma docno_line_id_witness :
  lacks "<" " D1 " = true ∧
  onMisc ("<DOCNO>" +:+ " D1 " +:+ String "<" ("/DOCNO>" +:+ nl))
    (init cb_go)
  = (PyStr "GotDocId",
     mkTrec (Some (strip " D1 ")) [] (callback (init cb_go))
       (calls (init cb_go))) ∧
  onMisc ("<DOCNO>" +:+ " D1 ") (init cb_go)
  = (PyStr "GotDocId",
     mkTrec (Some (strip (String.substring 0 (String.length " D1 " - 1) " D1 ")))
       [] (callback (init cb_go)) (calls (init cb_go))).
Proof.
  split; [reflexivity|].
  exact (docno_line_id " D1 " ("/DOCNO>" +:+ nl) (init cb_go) eq_refl).
Defined.

(** The two documents delivered, and the second one alone asked for
    the stop. *)
Example trec_docs_delivered :
  calls (run cb_second (["<DOC>" +:+ nl]
                          ++ concat (doc_lines <$> [trec_doc1; trec_doc2;
                                                    trec_doc1]))).1.2
  = [(Some "D1", "hello" +:+ nl +:+ "world" +:+ nl);
     (Some "D2", "again" +:+ nl)].
Proof. reflexivity. Qed.

End TrecMore.

Module SMARTMore.
Import Py IO Examples IOFacts IOFacts.SMARTFacts EngineMore SMARTParser.

Implicit Types (fr : frame SMARTParser) (self : SMARTParser).

Lemma smart_fns_Misc : introspect cls !! "Misc" = Some onMisc.
Proof. reflexivity. Qed.

Lemma smart_fns_SawDotC : introspect cls !! "SawDotC" = Some onSawDotC.
Proof. reflexivity. Qed.

Lemma smart_fns_SectionHeader :
  introspect cls !! "SectionHeader" = Some onSectionHeader.
Proof. reflexivity. Qed.

Lemma smart_fns_SectionText :
  introspect cls !! "SectionText" = Some onSectionText.
Proof. reflexivity. Qed.

Lemma buffer_nil self : buffer self [] = self.
Proof. destruct self. unfold buffer. simpl. by rewrite app_nil_r. Qed.

Lemma buffer_buffer self (xs ys : list string) :
  buffer (buffer self xs) ys = buffer self (xs ++ ys).
Proof. unfold buffer. simpl. by rewrite <-app_assoc. Qed.

(** A text line in state SectionText. *)
Lemma onSectionText_text (l : string) self :
  startswith l "." = false →
  onSectionText l self
  = (PyNone,
     if keeps (allowedsections self) (sectionheader self)
     then buffer self [l] else self).
Proof.
  intros Hl. unfold onSectionText, keeps, buffer. rewrite Hl.
  destruct (allowedsections self) as [allowed|]; [|done].
  by destruct (header_not_in (sectionheader self) allowed).
Qed.

Lemma text_lines (ts : list string) fr self :
  f_state fr = "SectionText" → f_self fr = self →
  Forall (λ l, startswith l "." = false) ts →
  reaches (introspect cls) ts fr Normal "SectionText"
    (buffer self
       (if keeps (allowedsections self) (sectionheader self) then ts else [])).
Proof.
  intros Hst Hs Hall.
  destruct (keeps (allowedsections self) (sectionheader self)) eqn:Hk.
  - revert fr self Hst Hs Hk.
    induction Hall as [|l ts Hl _ IH]; intros fr self Hst Hs Hk.
    { rewrite buffer_nil, <-Hst, <-Hs. apply reaches_nil. }
    apply (reaches_app _ [l] ts fr "SectionText" (buffer self [l])).
    + assert (introspect cls !! f_state fr = Some onSectionText) as Hfn
        by (rewrite Hst; apply smart_fns_SectionText).
      assert (onSectionText l (f_self fr) = (PyNone, buffer self [l])) as Hr
        by (rewrite (onSectionText_text l _ Hl), Hs; by rewrite Hk).
      pose proof (reaches_step _ l fr onSectionText _ _ Hfn Hr) as Hstep.
      simpl in Hstep. by rewrite Hst in Hstep.
    + intros fr1 Hst1 Hs1.
      specialize (IH fr1 _ Hst1 Hs1 Hk). by rewrite buffer_buffer in IH.
  - rewrite buffer_nil.
    apply (reaches_ignored _ _ onSectionText);
      [apply smart_fns_SectionText| |done|done].
    eapply Forall_impl; [exact Hall|]. intros l Hl. simpl in Hl.
    rewrite (onSectionText_text l self Hl). by rewrite Hk.
Qed.

(** A header line followed by its text, the header read by [fn]. *)
Lemma section_reaches (sec : section) fr self (fn : method SMARTParser) :
  introspect cls !! f_state fr = Some fn → f_self fr = self →
  fn (sec_header sec) self = onSectionHeader (sec_header sec) self →
  text_ok sec →
  reaches (introspect cls) (section_lines sec) fr Normal "SectionText"
    (read_section self sec).
Proof.
  intros Hfn Hs Hhdr Htext. subst self.
  change (section_lines sec) with ([sec_header sec] ++ sec_text sec).
  apply (reaches_app _ _ _ fr "SectionText"
           (onSectionHeader (sec_header sec) (f_self fr)).2).
  - exact (reaches_step _ _ fr fn _ _ Hfn Hhdr).
  - intros fr1 Hst1 Hs1.
    exact (text_lines (sec_text sec) fr1 _ Hst1 Hs1 Htext).
Qed.

Lemma sections_reach (secs : list section) :
  Forall (λ sec, startswith (sec_header sec) "." = true ∧
                 startswith (sec_header sec) ".I" = false ∧
                 text_ok sec) secs →
  ∀ fr self, f_state fr = "SectionText" → f_self fr = self →
  reaches (introspect cls) (concat (section_lines <$> secs)) fr Normal
    "SectionText" (foldl read_section self secs).
Proof.
  intros Hall. induction Hall as [|sec secs (Hdot & HnotI & Htext) _ IH];
    intros fr self Hst Hs.
  { rewrite <-Hst, <-Hs. apply reaches_nil. }
  rewrite fmap_cons, concat_cons.
  apply (reaches_app _ _ _ fr "SectionText" (read_section self sec)).
  - apply (section_reaches sec fr self onSectionText); [|done| |done].
    + rewrite Hst. apply smart_fns_SectionText.
    + unfold onSectionText. by rewrite Hdot, HnotI.
  - intros fr1 Hst1 Hs1. simpl. by apply IH.
Qed.

Lemma startswith_dotI_dot (l : string) :
  startswith l ".I" = true → startswith l "." = true.
Proof.
  unfold startswith. destruct l as [|a l]; [done|].
  rewrite !prefix_cons. destruct (Ascii.ascii_dec "." a); [|done].
  intros _. apply StringMore.prefix_empty.
Qed.

Lemma doCallBack_empty self : textlines self = [] → doCallBack self = self.
Proof. intros Ht. unfold doCallBack. by rewrite Ht. Qed.

(** One well-formed document, read where a document may start. *)
Lemma smart_doc_reaches (d : doc) fr :
  well_formed d → ready fr →
  reaches (introspect cls) (doc_lines d) fr Normal "SectionText"
    (read_doc (f_self fr) d).
Proof.
  intros (Hid & Hgap & Hc & Hfirst & Hrest) Hready.
  set (s1 := (onMisc (doc_id_line d) (doCallBack (f_self fr))).2).
  set (s2 := (onSawDotC (doc_cats_line d) s1).2).
  change (doc_lines d)
    with ([doc_id_line d] ++ doc_gap d ++ [doc_c_line d] ++ [doc_cats_line d]
            ++ section_lines (doc_first d)
            ++ concat (section_lines <$> doc_rest d)).
  apply (reaches_app _ _ _ fr "GotDocId" s1).
  { destruct Hready as [Hst|[Hst Hempty]].
    - assert (introspect cls !! f_state fr = Some onSectionText) as Hfn
        by (rewrite Hst; apply smart_fns_SectionText).
      assert (onSectionText (doc_id_line d) (f_self fr) = (PyStr "GotDocId", s1))
        as Hr.
      { unfold onSectionText.
        rewrite (startswith_dotI_dot _ Hid), Hid. unfold s1, onMisc.
        by rewrite Hid. }
      exact (reaches_step _ _ fr onSectionText _ _ Hfn Hr).
    - assert (introspect cls !! f_state fr = Some onMisc) as Hfn
        by (rewrite Hst; apply smart_fns_Misc).
      assert (onMisc (doc_id_line d) (f_self fr) = (PyStr "GotDocId", s1))
        as Hr.
      { unfold s1. rewrite (doCallBack_empty _ Hempty). unfold onMisc.
        by rewrite Hid. }
      exact (reaches_step _ _ fr onMisc _ _ Hfn Hr). }
  intros fr1 Hst1 Hs1.
  apply (reaches_app _ _ _ fr1 "GotDocId" s1).
  { apply (reaches_ignored _ _ onGotDocId);
      [apply smart_fns_GotDocId| |done|done].
    eapply Forall_impl; [exact Hgap|]. intros l Hl. simpl in Hl.
    by apply onGotDocId_ignores. }
  intros fr2 Hst2 Hs2.
  apply (reaches_app _ _ _ fr2 "SawDotC" s1).
  { assert (introspect cls !! f_state fr2 = Some onGotDocId) as Hfn
      by (rewrite Hst2; apply smart_fns_GotDocId).
    assert (onGotDocId (doc_c_line d) (f_self fr2) = (PyStr "SawDotC", s1))
      as Hr by (unfold onGotDocId; by rewrite Hc, Hs2).
    exact (reaches_step _ _ fr2 onGotDocId _ _ Hfn Hr). }
  intros fr3 Hst3 Hs3.
  apply (reaches_app _ _ _ fr3 "SectionHeader" s2).
  { assert (introspect cls !! f_state fr3 = Some onSawDotC) as Hfn
      by (rewrite Hst3; apply smart_fns_SawDotC).
    assert (onSawDotC (doc_cats_line d) (f_self fr3)
            = (PyStr "SectionHeader", s2)) as Hr by (by rewrite Hs3).
    exact (reaches_step _ _ fr3 onSawDotC _ _ Hfn Hr). }
  intros fr4 Hst4 Hs4.
  apply (reaches_app _ _ _ fr4 "SectionText" (read_section s2 (doc_first d))).
  { apply (section_reaches (doc_first d) fr4 s2 onSectionHeader);
      [|done|done|done].
    rewrite Hst4. apply smart_fns_SectionHeader. }
  intros fr5 Hst5 Hs5.
  exact (sections_reach (doc_rest d) Hrest fr5 _ Hst5 Hs5).
Qed.

(** *** What a document leaves in the instance *)

Lemma doCallBack_calls self :
  calls (doCallBack self)
  = calls self ++
    (if (length (textlines self) =? 0)%nat then []
     else [(docid self, cats self, join (textlines self))]).
Proof.
  unfold doCallBack. destruct (length (textlines self) =? 0)%nat; simpl.
  - by rewrite app_nil_r.
  - done.
Qed.

Lemma doCallBack_allowed self :
  allowedsections (doCallBack self) = allowedsections self.
Proof. unfold doCallBack. by destruct (negb _). Qed.

Lemma foldl_read_section (secs : list section) self :
  docid (foldl read_section self secs) = docid self ∧
  cats (foldl read_section self secs) = cats self ∧
  allowedsections (foldl read_section self secs) = allowedsections self ∧
  calls (foldl read_section self secs) = calls self ∧
  textlines (foldl read_section self secs)
  = textlines self ++ concat (section_text (allowedsections self) <$> secs).
Proof.
  revert self. induction secs as [|sec secs IH]; intros self.
  { simpl. by rewrite app_nil_r. }
  simpl. destruct (IH (read_section self sec)) as (Hd & Hc & Ha & Hcalls & Ht).
  rewrite Hd, Hc, Ha, Hcalls, Ht. simpl. by rewrite <-app_assoc.
Qed.

Lemma read_doc_fields self (d : doc) :
  startswith (doc_id_line d) ".I" = true →
  docid (read_doc self d) = (doc_record (allowedsections self) d).1.1 ∧
  cats (read_doc self d) = (doc_record (allowedsections self) d).1.2 ∧
  allowedsections (read_doc self d) = allowedsections self ∧
  calls (read_doc self d) = calls (doCallBack self) ∧
  textlines (read_doc self d) = doc_text (allowedsections self) d.
Proof.
  intros Hid. unfold read_doc.
  destruct (foldl_read_section (doc_first d :: doc_rest d)
              (onSawDotC (doc_cats_line d)
                 (onMisc (doc_id_line d) (doCallBack self)).2).2)
    as (Hd & Hc & Ha & Hcalls & Ht).
  rewrite Hd, Hc, Ha, Hcalls, Ht. unfold onMisc. rewrite Hid. simpl.
  by rewrite doCallBack_allowed.
Qed.

Lemma read_doc_delivery self (d : doc) :
  startswith (doc_id_line d) ".I" = true →
  calls (doCallBack (read_doc self d))
  = calls (doCallBack self)
    ++ option_list (doc_delivery (allowedsections self) d).
Proof.
  intros Hid.
  destruct (read_doc_fields self d Hid) as (Hd & Hc & _ & Hcalls & Ht).
  rewrite (doCallBack_calls (read_doc self d)), Hd, Hc, Hcalls, Ht.
  unfold doc_delivery.
  by destruct (length (doc_text (allowedsections self) d) =? 0)%nat.
Qed.

(** A sequence of documents, read where a document may start. *)
Lemma smart_docs_reach (docs : list doc) :
  Forall well_formed docs →
  ∀ fr, ready fr →
  ∃ fr', for_loop (introspect cls) (concat (doc_lines <$> docs)) fr
         = (Normal, fr')
    ∧ allowedsections (f_self fr') = allowedsections (f_self fr)
    ∧ calls (doCallBack (f_self fr'))
      = calls (doCallBack (f_self fr))
        ++ omap (doc_delivery (allowedsections (f_self fr))) docs.
Proof.
  intros Hall. induction Hall as [|d docs Hd _ IH]; intros fr Hready.
  { exists fr. simpl. by rewrite app_nil_r. }
  rewrite fmap_cons, concat_cons, for_loop_app.
  destruct (smart_doc_reaches d fr Hd Hready) as (fr1 & Hloop & Hst1 & Hs1).
  rewrite Hloop.
  destruct (IH fr1) as (fr2 & Hloop2 & Hallowed & Hcalls); [by left|].
  destruct Hd as (Hid & _).
  destruct (read_doc_fields (f_self fr) d Hid) as (_ & _ & Ha & _ & _).
  exists fr2. split; [done|]. rewrite Hs1 in Hallowed, Hcalls.
  rewrite Ha in Hallowed, Hcalls. split; [done|].
  rewrite Hcalls, (read_doc_delivery _ d Hid), <-app_assoc. f_equal.
  simpl. by destruct (doc_delivery (allowedsections (f_self fr)) d).
Qed.

(** What [parse] has invoked the callback on, from where the loop ended. *)
Lemma run_calls cb sections (fin : list string) fr :
  for_loop (introspect cls) fin (initial_frame cls (init cb sections))
    = (Normal, fr) →
  calls (run cb sections fin).1.2 = calls (doCallBack (f_self fr)).
Proof.
  intros Hloop. unfold run, parse. rewrite Hloop. unfold finish.
  destruct fin as [|l fin].
  - by injection Hloop as <-.
  - destruct (for_loop_line_bound _ (l :: fin) _ _ _ ltac:(done) Hloop)
      as [l' Hl].
    by rewrite Hl.
Qed.

(** X18: on a source made of well-formed documents, whatever the
    callback answers, it is invoked once for each document that has
    text in an allowed section, in order, with the document id, the
    categories and the allowed text joined; the last document is
    delivered when the source ends. *)
Theorem smart_delivers cb sections (lead : list string) (docs : list doc)
    (Hlead : Forall (λ l, startswith l ".I" = false) lead)
    (Hdocs : Forall well_formed docs) :
  calls (run cb sections (lead ++ concat (doc_lines <$> docs))).1.2
  = omap (doc_delivery sections) docs.
Proof.
  assert (reaches (introspect cls) lead (initial_frame cls (init cb sections))
            Normal "Misc" (init cb sections)) as (fr0 & Hloop0 & Hst0 & Hs0).
  { apply (reaches_ignored _ _ onMisc); [apply smart_fns_Misc| |done|done].
    eapply Forall_impl; [exact Hlead|]. intros l Hl. simpl in Hl.
    unfold onMisc. by rewrite Hl. }
  destruct (smart_docs_reach docs Hdocs fr0) as (fr' & Hloop & _ & Hcalls).
  { right. by rewrite Hs0. }
  rewrite (run_calls cb sections _ fr'); [|by rewrite for_loop_app, Hloop0].
  by rewrite Hcalls, Hs0.
Qed.

(** *** Any source *)

Lemma smart_state_fn fr :
  is_state (f_state fr) → ∃ fn, introspect cls !! f_state fr = Some fn.
Proof.
  intros [Hs|[Hs|[Hs|[Hs|Hs]]]]; rewrite Hs; eexists; reflexivity.
Qed.

(** No state function of the class ever answers [False], and each
    moves to a state of the class. *)
Lemma body_normal (l : string) fr :
  is_state (f_state fr) →
  ∃ fr', loop_body (introspect cls) l fr = (Normal, fr')
         ∧ is_state (f_state fr').
Proof.
  unfold is_state.
  intros [Hs|[Hs|[Hs|[Hs|Hs]]]]; unfold loop_body; rewrite Hs.
  - rewrite smart_fns_Misc. unfold onMisc.
    destruct (startswith l ".I"); eexists; (split; [reflexivity|]); simpl; tauto.
  - rewrite smart_fns_GotDocId. unfold onGotDocId.
    destruct (startswith l ".C"); eexists; (split; [reflexivity|]); simpl; tauto.
  - rewrite smart_fns_SawDotC. eexists; (split; [reflexivity|]); simpl; tauto.
  - rewrite smart_fns_SectionHeader.
    eexists; (split; [reflexivity|]); simpl; tauto.
  - rewrite smart_fns_SectionText. unfold onSectionText, onMisc, onSectionHeader.
    destruct (startswith l "."); [destruct (startswith l ".I")|].
    + eexists; (split; [reflexivity|]); simpl; tauto.
    + eexists; (split; [reflexivity|]); simpl; tauto.
    + destruct (allowedsections (f_self fr)) as [allowed|];
        [destruct (header_not_in _ allowed)|];
        eexists; (split; [reflexivity|]); simpl; tauto.
Qed.

Lemma loop_normal (fin : list string) fr :
  is_state (f_state fr) →
  ∃ fr', for_loop (introspect cls) fin fr = (Normal, fr')
         ∧ is_state (f_state fr').
Proof.
  revert fr. induction fin as [|l fin IH]; intros fr Hst; [by exists fr|].
  rewrite for_loop_cons.
  destruct (body_normal l fr Hst) as (fr1 & Hbody & Hst1).
  rewrite Hbody. by apply IH.
Qed.

(** X19: on every source with at least one line, whatever the lines
    and the callback, [SMARTParser.parse] reads every line, calls
    [onFinish] on the last one and returns: the loop is never left
    early. *)
Theorem smart_parse_reads_all cb sections (fin : list string) (l : string) :
  (run cb sections (fin ++ [l])).1.1 = Return () ∧
  event_line <$> (run cb sections (fin ++ [l])).2 = fin ++ [l; l].
Proof.
  destruct (loop_normal (fin ++ [l]) (initial_frame cls (init cb sections)))
    as (fr & Hloop & _); [by left|].
  unfold run. rewrite (parse_exhausted cls fin l _ fr Hloop). simpl.
  split; [done|].
  rewrite fmap_app, (for_loop_normal_trace _ _ _ _ Hloop). simpl.
  by rewrite <-app_assoc.
Qed.

(** *** The callback's answers *)

Lemma doCallBack_set_callback cb' self :
  doCallBack (set_callback cb' self) = set_callback cb' (doCallBack self).
Proof.
  unfold doCallBack, set_callback. simpl.
  by destruct (negb (length (textlines self) =? 0)%nat).
Qed.

Lemma body_set_callback cb' (l : string) fr :
  is_state (f_state fr) →
  loop_body (introspect cls) l (frame_set_callback cb' fr)
  = ((loop_body (introspect cls) l fr).1,
     frame_set_callback cb' (loop_body (introspect cls) l fr).2).
Proof.
  unfold is_state.
  intros [Hs|[Hs|[Hs|[Hs|Hs]]]]; unfold loop_body, frame_set_callback;
    simpl; rewrite Hs.
  - rewrite smart_fns_Misc. unfold onMisc.
    by destruct (startswith l ".I").
  - rewrite smart_fns_GotDocId. unfold onGotDocId.
    by destruct (startswith l ".C").
  - by rewrite smart_fns_SawDotC.
  - by rewrite smart_fns_SectionHeader.
  - rewrite smart_fns_SectionText. unfold onSectionText.
    destruct (startswith l "."); [destruct (startswith l ".I")|].
    + rewrite doCallBack_set_callback. unfold onMisc.
      by destruct (startswith l ".I").
    + done.
    + simpl. destruct (allowedsections (f_self fr)) as [allowed|]; [|done].
      by destruct (header_not_in _ allowed).
Qed.

Lemma loop_set_callback cb' (fin : list string) fr :
  is_state (f_state fr) →
  for_loop (introspect cls) fin (frame_set_callback cb' fr)
  = ((for_loop (introspect cls) fin fr).1,
     frame_set_callback cb' (for_loop (introspect cls) fin fr).2).
Proof.
  revert fr. induction fin as [|l fin IH]; intros fr Hst; [done|].
  rewrite !for_loop_cons, (body_set_callback cb' l fr Hst).
  destruct (body_normal l fr Hst) as (fr1 & Hbody & Hst1).
  rewrite Hbody. simpl. by apply IH.
Qed.

(** X20: nothing [SMARTParser.parse] does depends on what the callback
    answers: with another callback the outcome, the calls made and the
    records delivered are the same. *)
Theorem smart_callback_unheard cb cb' sections (fin : list string) :
  (run cb' sections fin).1.1 = (run cb sections fin).1.1 ∧
  (run cb' sections fin).2 = (run cb sections fin).2 ∧
  calls (run cb' sections fin).1.2 = calls (run cb sections fin).1.2.
Proof.
  unfold run, parse.
  change (initial_frame cls (init cb' sections))
    with (frame_set_callback cb' (initial_frame cls (init cb sections))).
  rewrite loop_set_callback by (by left).
  destruct (loop_normal fin (initial_frame cls (init cb sections)))
    as (fr & Hloop & _); [by left|].
  rewrite Hloop. simpl. unfold finish, frame_set_callback. simpl.
  destruct (f_line fr); [|done]. simpl.
  by rewrite doCallBack_set_callback.
Qed.

(** *** Records are complete *)

Lemma join_nonempty (ls : list string) :
  ls ≠ [] → Forall (λ l, l ≠ "") ls → join ls ≠ "".
Proof.
  intros Hne Hall. destruct ls as [|l ls]; [done|].
  apply Forall_cons in Hall as [Hl _].
  unfold join. destruct l as [|a l]; [done|]. by destruct ls.
Qed.

Lemma doCallBack_complete self :
  Forall complete (calls self) → Forall (λ l, l ≠ "") (textlines self) →
  is_Some (docid self) → is_Some (cats self) →
  Forall complete (calls (doCallBack self)).
Proof.
  intros Hcalls Hlines Hd Hc. rewrite doCallBack_calls.
  apply Forall_app. split; [done|].
  destruct (length (textlines self) =? 0)%nat eqn:Hlen; [done|].
  apply Forall_singleton. split_and!; [done|done|]. simpl.
  apply join_nonempty; [|done].
  intros Hnil. by rewrite Hnil in Hlen.
Qed.

Lemma body_inv (l : string) fr :
  l ≠ "" → state_inv (f_state fr) (f_self fr) →
  ∃ fr', loop_body (introspect cls) l fr = (Normal, fr')
         ∧ state_inv (f_state fr') (f_self fr').
Proof.
  intros Hl (Hcalls & Hlines & Hcase). unfold loop_body, state_inv.
  destruct Hcase as [[Hs Ht]|[(Hs & Ht & Hd)|[(Hs & Ht & Hd)|
                     [(Hs & Ht & Hd & Hc)|(Hs & Hd & Hc)]]]]; rewrite Hs.
  - rewrite smart_fns_Misc. unfold onMisc.
    destruct (startswith l ".I"); eexists; (split; [reflexivity|]); simpl.
    + split_and!; [done|done|]. right; left. eauto.
    + split_and!; [done|done|]. left. eauto.
  - rewrite smart_fns_GotDocId. unfold onGotDocId.
    destruct (startswith l ".C"); eexists; (split; [reflexivity|]); simpl.
    + split_and!; [done|done|]. right; right; left. eauto.
    + split_and!; [done|done|]. right; left. eauto.
  - rewrite smart_fns_SawDotC. eexists; (split; [reflexivity|]); simpl.
    split_and!; [done|done|]. right; right; right; left. eauto.
  - rewrite smart_fns_SectionHeader. eexists; (split; [reflexivity|]); simpl.
    split_and!; [done|done|]. right; right; right; right. eauto.
  - rewrite smart_fns_SectionText. unfold onSectionText.
    destruct (startswith l "."); [destruct (startswith l ".I") eqn:HI|].
    + unfold onMisc. rewrite HI. eexists; (split; [reflexivity|]); simpl.
      split_and!; [by apply doCallBack_complete|done|].
      right; left. eauto.
    + eexists; (split; [reflexivity|]); simpl.
      split_and!; [done|done|]. right; right; right; right. eauto.
    + destruct (allowedsections (f_self fr)) as [allowed|];
        [destruct (header_not_in _ allowed)|];
        eexists; (split; [reflexivity|]); simpl;
        (split_and!; [done| |right; right; right; right; eauto]);
        try done; apply Forall_app; split; try done; by apply Forall_singleton.
Qed.

Lemma loop_inv (fin : list string) fr :
  Forall (λ l, l ≠ "") fin → state_inv (f_state fr) (f_self fr) →
  ∃ fr', for_loop (introspect cls) fin fr = (Normal, fr')
         ∧ state_inv (f_state fr') (f_self fr').
Proof.
  intros Hall. revert fr.
  induction Hall as [|l fin Hl _ IH]; intros fr Hinv; [by exists fr|].
  rewrite for_loop_cons.
  destruct (body_inv l fr Hl Hinv) as (fr1 & Hbody & Hinv1).
  rewrite Hbody. by apply IH.
Qed.

(** X21: on a source without empty lines, every record the callback
    is invoked on has a document id, a list of categories and a text
    that is not empty. *)
Theorem smart_records_complete cb sections (fin : list string)
    (Hlines : Forall (λ l, l ≠ "") fin) :
  Forall complete (calls (run cb sections fin).1.2).
Proof.
  destruct (loop_inv fin (initial_frame cls (init cb sections)) Hlines)
    as (fr & Hloop & Hcalls & Htext & Hcase).
  { split_and!; [done|done|]. left. eauto. }
  rewrite (run_calls cb sections fin fr Hloop).
  destruct Hcase as [[_ Ht]|[(_ & Ht & _)|[(_ & Ht & _)|
                     [(_ & Ht & _)|(_ & Hd & Hc)]]]];
    try (by rewrite (doCallBack_empty _ Ht)).
  by apply doCallBack_complete.
Qed.

(** *** The line of categories *)

Lemma cat_scan_label (l cur rest : string) :
  lacks " " l = true →
  cat_scan cur (l +:+ rest) = cat_scan (String.rev_app l cur) rest.
Proof.
  revert cur. induction l as [|c l IH]; intros cur Hl; [done|].
  simpl in Hl. apply andb_true_iff in Hl as [Hc Hl].
  apply negb_true_iff in Hc.
  change (String c l +:+ rest) with (String c (l +:+ rest)).
  simpl. rewrite Hc. by apply IH.
Qed.

Lemma rev_app_nonempty (a b : string) : b ≠ "" → String.rev_app a b ≠ "".
Proof.
  revert b. induction a as [|c a IH]; intros b Hb; [done|].
  simpl. by apply IH.
Qed.

Lemma cat_scan_match (l rest : string) :
  l ≠ "" → lacks " " l = true →
  cat_scan "" (l +:+ " 1" +:+ rest) = l :: cat_scan "" rest.
Proof.
  intros Hne Hl. rewrite (cat_scan_label l "" _ Hl).
  destruct (String.rev_app l "") as [|c cur] eqn:Hrev.
  { destruct l as [|a l]; [done|].
    by destruct (rev_app_nonempty l (String a "") ltac:(done)). }
  change (" 1" +:+ rest) with (String " " (String "1" rest)).
  simpl. by rewrite <-Hrev, StringMore.rev_rev_app.
Qed.

Lemma cat_scan_space (rest : string) :
  cat_scan "" (" " +:+ rest) = cat_scan "" rest.
Proof. reflexivity. Qed.

(** X22: on a line of labels, each followed by [" 1"] and separated by
    single spaces, the category pattern finds exactly the labels, in
    order, when no label is empty or contains a space. *)
Theorem cat_regex_groups_labels (labels : list string)
    (Hlabels : Forall (λ l, l ≠ "" ∧ lacks " " l = true) labels) :
  cat_regex_groups
    (String.concat " " ((λ l, l +:+ " 1") <$> labels) +:+ nl)
  = labels.
Proof.
  unfold cat_regex_groups.
  induction Hlabels as [|l labels [Hne Hl] Hrest IH]; [done|].
  destruct labels as [|l2 labels].
  - change (cat_scan "" ((l +:+ " 1") +:+ nl) = [l]).
    by rewrite StringMore.append_assoc, (cat_scan_match l nl Hne Hl).
  - change (cat_scan ""
              (((l +:+ " 1") +:+ " "
                  +:+ String.concat " " ((λ l, l +:+ " 1") <$> l2 :: labels))
                 +:+ nl)
            = l :: l2 :: labels).
    rewrite !StringMore.append_assoc, (cat_scan_match l _ Hne Hl).
    f_equal. rewrite cat_scan_space. exact IH.
Qed.

(** *** On the documents of the examples *)

Lemma smart_docs_ok : Forall well_formed [smart_doc1; smart_doc2].
Proof. repeat constructor. Qed.

Lemma smart_delivers_witness :
  Forall (λ l, startswith l ".I" = false) ["junk" +:+ nl] ∧
  Forall well_formed [smart_doc1; smart_doc2] ∧
  calls (run cb_stop (Some ["W"])
           (["junk" +:+ nl]
              ++ concat (doc_lines <$> [smart_doc1; smart_doc2]))).1.2
  = omap (doc_delivery (Some ["W"])) [smart_doc1; smart_doc2].
Proof.
  assert (Forall (λ l, startswith l ".I" = false) ["junk" +:+ nl]) as Hlead
    by (by repeat constructor).
  split; [exact Hlead|]. split; [exact smart_docs_ok|].
  exact (smart_delivers cb_stop (Some ["W"]) ["junk" +:+ nl]
           [smart_doc1; smart_doc2] Hlead smart_docs_ok).
Defined.

Lemma smart_two_docs_lines : Forall (λ l, l ≠ "") smart_two_docs.
Proof. by repeat constructor. Qed.

Lemma smart_records_complete_witness :
  Forall (λ l, l ≠ "") smart_two_docs ∧
  Forall complete (calls (run cb_stop None smart_two_docs).1.2).
Proof.
  split; [exact smart_two_docs_lines|].
  exact (smart_records_complete cb_stop None smart_two_docs
           smart_two_docs_lines).
Defined.

Lemma two_labels_ok :
  Forall (λ l, l ≠ "" ∧ lacks " " l = true) ["cat1"; "cat2"].
Proof. by repeat constructor. Qed.

Lemma cat_regex_groups_labels_witness :
  Forall (λ l, l ≠ "" ∧ lacks " " l = true) ["cat1"; "cat2"] ∧
  cat_regex_groups
    (String.concat " " ((λ l, l +:+ " 1") <$> ["cat1"; "cat2"]) +:+ nl)
  = ["cat1"; "cat2"].
Proof.
  split; [exact two_labels_ok|].
  exact (cat_regex_groups_labels ["cat1"; "cat2"] two_labels_ok).
Defined.

(** With only section [W] allowed, the second document has no text
    and is not delivered. *)
Example smart_docs_delivered :
  omap (doc_delivery (Some ["W"])) [smart_doc1; smart_doc2]
  = [(Some "1", Some ["cat1"; "cat2"], "hello world" +:+ nl)].
Proof. reflexivity. Qed.

End SMARTMore.
